(** * Verification of [examples/trie_utils.py]: the character trie used to
    split text on added tokens ([Trie], [ExtensionsTrie]) and the sorted
    token-list insertion helper. *)

From Stdlib Require Import List Arith NArith Lia Bool String Ascii Sorting Permutation Setoid.
Import ListNotations.
Set Warnings "-register-all".

(** Python exceptions the embedded code can raise.  [NameError] is what the
    call [logger.error(...)] raises in [Trie.cut_text]: [trie_utils.py]
    never binds the name [logger].  [UnboundLocalError] is what reading the
    local [end] of [Trie.split] raises before any assignment. *)
Inductive exn : Type := NameError | UnboundLocalError.

(** Result of a Python call: a value, or a raised exception. *)
Inductive res (A : Type) : Type :=
| Ok (a : A)
| Raise (e : exn).
Arguments Ok {A} a.
Arguments Raise {A} e.

Section TrieUtils.

(** Characters of a Python [str]: any type with decidable equality. *)
Context {char : Type} (char_eq_dec : forall a b : char, {a = b} + {a <> b}).

(** ** Data model *)

(** A trie node, i.e. one nested Python dict of [Trie.data]: the children
    keyed by character, in dict insertion order, and whether the reserved
    key [""] ([self._termination_char]) is present. *)
Inductive node : Type :=
| Node (term : bool) (kids : list (char * node)).

Definition is_term (n : node) : bool := match n with Node t _ => t end.
Definition kids (n : node) : list (char * node) := match n with Node _ k => k end.

(** Dict lookup [d[c]] / [c in d] on the children. *)
Fixpoint assoc (c : char) (l : list (char * node)) : option node :=
  match l with
  | [] => None
  | (k, v) :: l' => if char_eq_dec k c then Some v else assoc c l'
  end.

Definition child (n : node) (c : char) : option node := assoc c (kids n).

(** Dict assignment [d[c] = v]: an existing key keeps its position, a new
    key goes last. *)
Fixpoint set_kid (c : char) (v : node) (l : list (char * node)) : list (char * node) :=
  match l with
  | [] => [(c, v)]
  | (k, v') :: l' => if char_eq_dec k c then (k, v) :: l' else (k, v') :: set_kid c v l'
  end.

(** The Trie object: [self.data] (the root dict) and [self._tokens]. *)
Record Trie : Type := mkTrie { data : node; tokens : list (list char) }.

Definition word_eq_dec := list_eq_dec char_eq_dec.

(** [set.add]. *)
Definition set_add (w : list char) (s : list (list char)) : list (list char) :=
  if in_dec word_eq_dec w s then s else s ++ [w].

(** [Trie.__init__] with no words. *)
Definition empty_trie : Trie := mkTrie (Node false []) [].

(** The loop of [Trie.add] on the node [ref]:
    [ref[char] = ref.setdefault(char, {}); ref = ref[char]] for each
    character, then [ref[""] = 1]. *)
Fixpoint add_node (ref : node) (word : list char) : node :=
  match word with
  | [] => Node true (kids ref)
  | c :: word' =>
      let sub := match child ref c with Some s => s | None => Node false [] end in
      Node (is_term ref) (set_kid c (add_node sub word') (kids ref))
  end.

(** [Trie.add]. *)
Definition add (self : Trie) (word : list char) : Trie :=
  match word with
  | [] => self
  | _ => mkTrie (add_node (data self) word) (set_add word (tokens self))
  end.

(** [Trie.update(words)]: [for token in tuple(words): self.add(token)]. *)
Definition update (self : Trie) (words : list (list char)) : Trie :=
  fold_left add words self.

(** [Trie(words)]. *)
Definition construct (words : list (list char)) : Trie := update empty_trie words.

(** Walking the node tree along the characters of a word. *)
Fixpoint walk (n : node) (w : list char) : option node :=
  match w with
  | [] => Some n
  | c :: w' => match child n c with Some m => walk m w' | None => None end
  end.

(** ** [Trie.split] *)

Section Split.
Variable text : list char.

(** The [while next_char in looktrie_pointer] loop of the lookahead;
    [rest] is [text[lookahead_index:]], so [next_char] is its head ([None]
    when it is empty; the [break] at [lookahead_index == len(text)] is the
    case [rest' = []]).  [acc] is [(start, end, skip)]. *)
Fixpoint advance (lookstart : nat) (lptr : node) (li : nat) (rest : list char)
    (acc : nat * option nat * nat) : nat * option nat * nat :=
  match rest with
  | [] => acc
  | c :: rest' =>
      match child lptr c with
      | None => acc
      | Some p =>
          let acc := if is_term p then (lookstart, Some (S li), S li) else acc in
          advance lookstart p (S li) rest' acc
      end
  end.

(** The lookahead: [for lookstart, looktrie_pointer in states.items()]. *)
Fixpoint lookahead (current : nat) (entries : list (nat * node))
    (start : nat) (end_ : option nat) (skip : nat) : nat * option nat * nat :=
  match entries with
  | [] => (start, end_, skip)
  | (lookstart, lptr) :: es =>
      if start <? lookstart then (start, end_, skip)
      else
        let '(li, end_) :=
          if lookstart <? start then (S current, Some (S current))
          else (current, Some current) in
        let '(start, end_, skip) :=
          if is_term lptr then (lookstart, Some li, li) else (start, end_, skip) in
        let '(start, end_, skip) :=
          advance lookstart lptr li (skipn li text) (start, end_, skip) in
        lookahead current es start end_ skip
  end.

(** Locals of [split] after the [for start, trie_pointer in states.items()]
    loop of one main-loop iteration. *)
Record scan_out : Type := mkScan {
  so_states : list (nat * node);
  so_remove : list nat;
  so_skip : nat;
  so_end : option nat;
  so_offsets : list nat;
  so_reset : bool }.

(** That loop; [done] are the entries already visited (with their updated
    pointers), [todo] the rest, so that [states] is [done ++ todo]. *)
Fixpoint scan (current : nat) (cc : char) (done todo : list (nat * node))
    (to_remove : list nat) (skip : nat) (end_ : option nat) (offsets : list nat)
    : res scan_out :=
  match todo with
  | [] => Ok (mkScan done to_remove skip end_ offsets false)
  | (start, ptr) :: todo' =>
      if is_term ptr then
        let '(start, end_, skip) := lookahead current (done ++ todo) start end_ skip in
        match end_ with
        | None => Raise UnboundLocalError
        | Some e => Ok (mkScan (done ++ todo) to_remove skip end_ (offsets ++ [start; e]) true)
        end
      else
        match child ptr cc with
        | Some p => scan current cc (done ++ [(start, p)]) todo' to_remove skip end_ offsets
        | None => scan current cc (done ++ [(start, ptr)]) todo' (to_remove ++ [start]) skip end_ offsets
        end
  end.

(** Locals of [split] between two iterations of the main loop, with the
    Trie object [self] the method runs on. *)
Record lstate : Type := mkL {
  ls_self : Trie;
  ls_states : list (nat * node);
  ls_offsets : list nat;
  ls_skip : nat;
  ls_end : option nat }.

(** [del states[k]]. *)
Fixpoint del_key (k : nat) (s : list (nat * node)) : list (nat * node) :=
  match s with
  | [] => []
  | (k', v) :: s' => if k' =? k then s' else (k', v) :: del_key k s'
  end.

(** [states[k] = v]. *)
Fixpoint set_key (k : nat) (v : node) (s : list (nat * node)) : list (nat * node) :=
  match s with
  | [] => [(k, v)]
  | (k', v') :: s' => if k' =? k then (k', v) :: s' else (k', v') :: set_key k v s'
  end.

(** One iteration of [for current, current_char in enumerate(text)]. *)
Definition step (current : nat) (cc : char) (st : lstate) : res lstate :=
  if negb (ls_skip st =? 0) && (current <? ls_skip st) then Ok st
  else
    match scan current cc [] (ls_states st) [] (ls_skip st) (ls_end st) (ls_offsets st) with
    | Raise e => Raise e
    | Ok so =>
        let states :=
          if so_reset so then []
          else fold_left (fun s k => del_key k s) (so_remove so) (so_states so) in
        let states :=
          if so_skip so <=? current then
            match child (data (ls_self st)) cc with
            | Some n => set_key current n states
            | None => states
            end
          else states in
        Ok (mkL (ls_self st) states (so_offsets so) (so_skip so) (so_end so))
    end.

(** The main loop, from index [current] on [cs = text[current:]]. *)
Fixpoint main_loop (current : nat) (cs : list char) (st : lstate) : res lstate :=
  match cs with
  | [] => Ok st
  | c :: cs' =>
      match step current c st with
      | Raise e => Raise e
      | Ok st' => main_loop (S current) cs' st'
      end
  end.

(** The loop after the main loop: the first terminal state is cut at
    [len(text)]. *)
Fixpoint final_cut (states : list (nat * node)) (offsets : list nat) : list nat :=
  match states with
  | [] => offsets
  | (start, ptr) :: s =>
      if is_term ptr then offsets ++ [start; List.length text] else final_cut s offsets
  end.

(** [text[start:end]] *)
Definition slice (start end_ : nat) : list char := firstn (end_ - start) (skipn start text).

(** The loop of [cut_text]; the branch [start > end] calls [logger.error],
    which raises [NameError]. *)
Fixpoint cut_loop (start : nat) (offs : list nat) (toks : list (list char))
    : res (list (list char)) :=
  match offs with
  | [] => Ok toks
  | e :: offs' =>
      if e <? start then Raise NameError
      else if start =? e then cut_loop start offs' toks
      else cut_loop e offs' (toks ++ [slice start e])
  end.

(** [Trie.cut_text(text, offsets)]. *)
Definition cut_text (offsets : list nat) : res (list (list char)) :=
  cut_loop 0 (offsets ++ [List.length text]) [].

(** The offsets [split] hands to [cut_text]. *)
Definition split_offsets (self : Trie) : res (list nat) :=
  match main_loop 0 text (mkL self [] [0] 0 None) with
  | Raise e => Raise e
  | Ok st => Ok (final_cut (ls_states st) (ls_offsets st))
  end.

(** [Trie.split(text)] as a method: the fragments and the Trie object
    after the call. *)
Definition split_run (self : Trie) : res (list (list char) * Trie) :=
  match main_loop 0 text (mkL self [] [0] 0 None) with
  | Raise e => Raise e
  | Ok st =>
      match cut_text (final_cut (ls_states st) (ls_offsets st)) with
      | Raise e => Raise e
      | Ok toks => Ok (toks, ls_self st)
      end
  end.

(** The return value of [Trie.split(text)]. *)
Definition split (self : Trie) : res (list (list char)) :=
  match split_run self with
  | Raise e => Raise e
  | Ok (toks, _) => Ok toks
  end.

(** The invariant of the main loop of [split] before index [current]. *)
Definition loop_inv (current : nat) (st : lstate) : Prop :=
  StronglySorted Nat.lt (map fst (ls_states st)) /\
  (forall k, In k (map fst (ls_states st)) -> ls_skip st <= k < current) /\
  StronglySorted le (ls_offsets st) /\
  Forall (fun o => o <= ls_skip st) (ls_offsets st) /\
  ls_skip st <= List.length text.

End Split.

(** ** [ExtensionsTrie] *)

(** [ExtensionsTrie._get_node]. *)
Fixpoint get_node (n : node) (token : list char) : node :=
  match token with
  | [] => n
  | c :: t => match child n c with None => n | Some m => get_node m t end
  end.

(** [ExtensionsTrie._collect_tokens]. *)
Fixpoint collect_tokens (n : node) : list (list char) :=
  match n with
  | Node t ks =>
      (if t then [[]] else []) ++
      (fix go (ks : list (char * node)) : list (list char) :=
         match ks with
         | [] => []
         | (k, sub) :: ks' => map (cons k) (collect_tokens sub) ++ go ks'
         end) ks
  end.

(** [ExtensionsTrie.extensions]. *)
Definition extensions (self : Trie) (prefix : list char) : list (list char) :=
  map (app prefix) (collect_tokens (get_node (data self) prefix)).

(** ** Predicates used in the proofs *)

(** The agreement of [_tokens] with the node tree. *)
Definition tokens_agree (T : Trie) : Prop :=
  forall w, In w (tokens T) <-> exists m, walk (data T) w = Some m /\ is_term m = true.

(** ** Well-formed nodes: no duplicate keys in any dict *)

Fixpoint wf (n : node) : Prop :=
  match n with
  | Node _ ks =>
      NoDup (map fst ks) /\
      (fix wfl (ks : list (char * node)) : Prop :=
         match ks with [] => True | (_, s) :: ks' => wf s /\ wfl ks' end) ks
  end.

End TrieUtils.

(** ** [_insert_one_token_to_ordered_list] *)

Section OrderedList.

(** Python's [<] and [==] on the elements of the list. *)
Context {A : Type} (lt : A -> A -> bool) (eq_dec : forall a b : A, {a = b} + {a <> b}).

(** The [while lo < hi] loop of [bisect.bisect_left(a, x)]; [fuel] bounds
    the number of iterations ([hi - lo] decreases at each one).  The lookup
    [a[mid]] is in range since [mid < hi <= len(a)]. *)
Fixpoint bisect_loop (a : list A) (x : A) (fuel lo hi : nat) : nat :=
  match fuel with
  | O => lo
  | S fuel' =>
      if lo <? hi then
        let mid := (lo + hi) / 2 in
        match nth_error a mid with
        | Some y => if lt y x then bisect_loop a x fuel' (S mid) hi
                    else bisect_loop a x fuel' lo mid
        | None => lo
        end
      else lo
  end.

(** [bisect.bisect_left(a, x)] with [lo = 0], [hi = len(a)]. *)
Definition bisect_left (a : list A) (x : A) : nat :=
  bisect_loop a x (List.length a) 0 (List.length a).

(** [list.insert(i, x)] for [0 <= i <= len]. *)
Definition list_insert (l : list A) (i : nat) (x : A) : list A :=
  firstn i l ++ x :: skipn i l.

(** [_insert_one_token_to_ordered_list(token_list, new_token)]: the list
    after the call. *)
Definition insert_one_token_to_ordered_list (token_list : list A) (new_token : A) : list A :=
  let insertion_idx := bisect_left token_list new_token in
  match nth_error token_list insertion_idx with
  | Some y => if eq_dec y new_token then token_list
              else list_insert token_list insertion_idx new_token
  | None => list_insert token_list insertion_idx new_token
  end.

End OrderedList.

(** A Python [str] literal over ASCII characters. *)
Definition str (x : string) : list ascii := list_ascii_of_string x.

(** Python exceptions of the helpers below: [IndexError] ([text[0]] or
    [text[-1]] on an empty string) and [TypeError] ([tuple] called with
    more than one argument). *)
Inductive py_exn : Type := IndexError | TypeError.

Inductive outcome (A : Type) : Type :=
| Value (a : A)
| Error (e : py_exn).
Arguments Value {A} a.
Arguments Error {A} e.

(** ** [Trie( *args)] and [Trie.update( *args)] *)

Section TrieArgs.
Context {char : Type} (char_eq_dec : forall a b : char, {a = b} + {a <> b}).

(** One positional argument: an iterable of words (a list, a tuple, or a
    set in its iteration order), or a [str], whose iteration yields its
    one-character strings. *)
Inductive iterable : Type :=
| Words (ws : list (list char))
| Chars (s : list char).

Definition iter_items (a : iterable) : list (list char) :=
  match a with
  | Words ws => ws
  | Chars s => map (fun c => [c]) s
  end.

(** [tuple( *args)]: [tuple()] is empty, [tuple(x)] lists the items of
    [x], and two or more arguments raise [TypeError]. *)
Definition tuple_args (args : list iterable) : outcome (list (list char)) :=
  match args with
  | [] => Value []
  | [a] => Value (iter_items a)
  | _ :: _ :: _ => Error TypeError
  end.

(** [Trie.update(self, *args)]: [for token in tuple( *args): self.add(token)]. *)
Definition update_args (self : Trie) (args : list iterable) : outcome Trie :=
  match tuple_args args with
  | Value ws => Value (update char_eq_dec self ws)
  | Error e => Error e
  end.

(** [Trie( *args)] (and [ExtensionsTrie( *args)], which calls it):
    [self.data = {}], [self._tokens = set()], then [self.update( *args)]. *)
Definition init_args (args : list iterable) : outcome Trie :=
  update_args empty_trie args.

End TrieArgs.

(** ** Character classes *)

(** A one-character Python [str] is its code point [ord(char)]. *)
Section CharClasses.

(** [unicodedata.category]: the general category of a code point, as the
    interpreter's Unicode database gives it. *)
Variable category : nat -> string.

(** [_is_whitespace(char)]: [" "], ["\t"], ["\n"], ["\r"] are code points
    32, 9, 10, 13. *)
Definition is_whitespace (ch : nat) : bool :=
  if (ch =? 32) || (ch =? 9) || (ch =? 10) || (ch =? 13) then true
  else String.eqb (category ch) "Zs".

(** [_is_control(char)]. *)
Definition is_control (ch : nat) : bool :=
  if (ch =? 9) || (ch =? 10) || (ch =? 13) then false
  else String.prefix "C" (category ch).

(** [_is_punctuation(char)]. *)
Definition is_punctuation (ch : nat) : bool :=
  let cp := ch in
  if ((33 <=? cp) && (cp <=? 47)) || ((58 <=? cp) && (cp <=? 64)) ||
     ((91 <=? cp) && (cp <=? 96)) || ((123 <=? cp) && (cp <=? 126)) then true
  else String.prefix "P" (category ch).

(** [bool(_is_control(c) | _is_punctuation(c) | _is_whitespace(c))]. *)
Definition boundary_char (ch : nat) : bool :=
  is_control ch || is_punctuation ch || is_whitespace ch.

(** [_is_end_of_word(text)]: [text[-1]] raises [IndexError] on [""]. *)
Definition is_end_of_word (text : list nat) : outcome bool :=
  match rev text with
  | [] => Error IndexError
  | last_char :: _ => Value (boundary_char last_char)
  end.

(** [_is_start_of_word(text)]: [text[0]] raises [IndexError] on [""]. *)
Definition is_start_of_word (text : list nat) : outcome bool :=
  match text with
  | [] => Error IndexError
  | first_char :: _ => Value (boundary_char first_char)
  end.

End CharClasses.

(** * Proofs *)

Section TrieProofs.
Context {char : Type} (char_eq_dec : forall a b : char, {a = b} + {a <> b}).

Local Abbreviation node := (@node char).
Local Abbreviation Trie := (@Trie char).
Local Abbreviation assoc := (assoc char_eq_dec).
Local Abbreviation child := (child char_eq_dec).
Local Abbreviation set_kid := (set_kid char_eq_dec).
Local Abbreviation add_node := (add_node char_eq_dec).
Local Abbreviation add := (add char_eq_dec).
Local Abbreviation set_add := (set_add char_eq_dec).
Local Abbreviation construct := (construct char_eq_dec).
Local Abbreviation update := (update char_eq_dec).
Local Abbreviation walk := (walk char_eq_dec).
Local Abbreviation tokens_agree := (tokens_agree char_eq_dec).

(** ** Dict operations on the children *)

Lemma assoc_set_kid_same (c : char) (v : node) (l : list (char * node)) :
  assoc c (set_kid c v l) = Some v.
Proof.
  induction l as [|[k v'] l IH]; simpl.
  - destruct (char_eq_dec c c); congruence.
  - destruct (char_eq_dec k c) as [->|Hne]; simpl.
    + destruct (char_eq_dec c c); congruence.
    + destruct (char_eq_dec k c); [contradiction|exact IH].
Qed.

Lemma assoc_set_kid_other (c d : char) (v : node) (l : list (char * node)) :
  c <> d -> assoc d (set_kid c v l) = assoc d l.
Proof.
  intros Hcd. induction l as [|[k v'] l IH]; simpl.
  - destruct (char_eq_dec c d); congruence.
  - destruct (char_eq_dec k c) as [->|Hne]; simpl.
    + destruct (char_eq_dec c d); [contradiction|reflexivity].
    + destruct (char_eq_dec k d); [reflexivity|exact IH].
Qed.

Lemma set_kid_set_kid (c : char) (v : node) (l : list (char * node)) :
  set_kid c v (set_kid c v l) = set_kid c v l.
Proof.
  induction l as [|[k v'] l IH]; simpl.
  - destruct (char_eq_dec c c); congruence.
  - destruct (char_eq_dec k c) as [->|Hne]; simpl.
    + destruct (char_eq_dec c c); congruence.
    + destruct (char_eq_dec k c); [contradiction|now rewrite IH].
Qed.

(** ** Idempotence of [add] *)

Lemma add_node_idem (w : list char) : forall n : node,
  add_node (add_node n w) w = add_node n w.
Proof.
  induction w as [|c w IH]; intros [t ks]; simpl; [reflexivity|].
  unfold child at 1; simpl. rewrite assoc_set_kid_same, IH.
  now rewrite set_kid_set_kid.
Qed.

Lemma set_add_idem (w : list char) (s : list (list char)) :
  set_add w (set_add w s) = set_add w s.
Proof.
  unfold set_add. destruct (in_dec (word_eq_dec char_eq_dec) w s) as [H|H].
  - destruct (in_dec (word_eq_dec char_eq_dec) w s); [reflexivity|contradiction].
  - destruct (in_dec (word_eq_dec char_eq_dec) w (s ++ [w])) as [_|H'];
      [reflexivity|].
    exfalso. apply H', in_or_app. right. now left.
Qed.

Lemma add_twice (T : Trie) (w : list char) : add (add T w) w = add T w.
Proof.
  destruct w as [|c w]; [reflexivity|]. unfold add; simpl.
  f_equal.
  - exact (add_node_idem (c :: w) (data T)).
  - apply set_add_idem.
Qed.

(** ** Terminal markers and the token set *)

Lemma walk_leaf (w : list char) (m : node) :
  walk (Node false []) w = Some m -> is_term m = false.
Proof.
  destruct w as [|c w]; simpl; [now intros [= <-]|discriminate].
Qed.

Lemma walk_add_node (v : list char) : forall (r : node) (w : list char),
  (exists m, walk (add_node r v) w = Some m /\ is_term m = true) <->
  w = v \/ (exists m, walk r w = Some m /\ is_term m = true).
Proof.
  induction v as [|c v IH]; intros [t ks] w.
  - destruct w as [|d w]; simpl.
    + split; [auto|]. intros _. now exists (Node true ks).
    + split; [intros H; right; exact H|].
      intros [H|H]; [discriminate|exact H].
  - destruct w as [|d w]; simpl.
    + split.
      * intros (m & [= <-] & Hm). right. now exists (Node t ks).
      * intros [H|H]; [discriminate|]. destruct H as (m & [= <-] & Hm).
        now exists (Node t (set_kid c (add_node match assoc c ks with
          | Some s => s | None => Node false [] end v) ks)).
    + unfold child; simpl.
      destruct (char_eq_dec c d) as [<-|Hcd].
      * rewrite assoc_set_kid_same, IH.
        destruct (assoc c ks) as [sub|] eqn:E.
        -- split; intros [H|H]; (left; congruence) || (right; exact H).
        -- split.
           ++ intros [H|H]; [left; congruence|].
              destruct H as (m & Hw & Hm). rewrite (walk_leaf _ _ Hw) in Hm. discriminate.
           ++ intros [H|H]; [left; congruence|]. destruct H as (m & Hw & _). discriminate.
      * rewrite assoc_set_kid_other by exact Hcd.
        split; [intros H; right; exact H|].
        intros [H|H]; [congruence|exact H].
Qed.

Lemma tokens_agree_empty : tokens_agree (empty_trie).
Proof.
  intros w. simpl. split; [intros []|].
  intros (m & Hw & Hm). rewrite (walk_leaf _ _ Hw) in Hm. discriminate.
Qed.

Lemma tokens_agree_add (T : Trie) (v : list char) :
  tokens_agree T -> tokens_agree (add T v).
Proof.
  intros HT w. destruct v as [|c v]; [exact (HT w)|].
  change (add T (c :: v)) with (mkTrie (add_node (data T) (c :: v)) (set_add (c :: v) (tokens T))).
  cbn [data tokens]. rewrite walk_add_node, <- (HT w).
  unfold set_add. destruct (in_dec (word_eq_dec char_eq_dec) (c :: v) (tokens T)) as [Hin|Hin].
  - split; [auto|]. intros [->|H]; auto.
  - rewrite in_app_iff. simpl. intuition.
Qed.

Lemma tokens_agree_update (ws : list (list char)) : forall T : Trie,
  tokens_agree T -> tokens_agree (update T ws).
Proof.
  induction ws as [|w ws IH]; intros T HT; simpl; [exact HT|].
  apply IH, tokens_agree_add, HT.
Qed.

Lemma node_ind' (P : node -> Prop)
  (f : forall t ks, (forall c s, In (c, s) ks -> P s) -> P (Node t ks)) :
  forall n, P n.
Proof.
  fix IH 1. intros [t ks]. apply f.
  induction ks as [|[k s] ks IHks]; simpl; [intros ? ? []|].
  intros c s' [[= <- <-]|H]; [apply IH|exact (IHks c s' H)].
Qed.

Lemma wf_kids (t : bool) (ks : list (char * node)) :
  wf (Node t ks) <-> NoDup (map fst ks) /\ (forall c s, In (c, s) ks -> wf s).
Proof.
  simpl. apply and_iff_compat_l.
  induction ks as [|[k s] ks IH]; simpl.
  - split; [intros _ ? ? []|auto].
  - rewrite IH. split.
    + intros [Hs Hks] c s' [[= <- <-]|H]; eauto.
    + intros H. split; eauto.
Qed.

Lemma assoc_in (c : char) (s : node) (ks : list (char * node)) :
  assoc c ks = Some s -> In (c, s) ks.
Proof.
  induction ks as [|[k v] ks IH]; simpl; [discriminate|].
  destruct (char_eq_dec k c) as [->|_]; [intros [= ->]; now left|].
  intros H. right. exact (IH H).
Qed.

Lemma in_assoc (c : char) (s : node) (ks : list (char * node)) :
  NoDup (map fst ks) -> In (c, s) ks -> assoc c ks = Some s.
Proof.
  induction ks as [|[k v] ks IH]; simpl; [intros _ []|].
  intros Hnd Hin. inversion Hnd as [|? ? Hk Hnd']; subst.
  destruct (char_eq_dec k c) as [->|Hne].
  - destruct Hin as [[= ->]|Hin]; [reflexivity|].
    exfalso. apply Hk. now apply (in_map fst) in Hin.
  - destruct Hin as [[= -> ->]|Hin]; [contradiction|exact (IH Hnd' Hin)].
Qed.

Lemma in_set_kid (c d : char) (v s : node) (ks : list (char * node)) :
  In (d, s) (set_kid c v ks) -> (d = c /\ s = v) \/ In (d, s) ks.
Proof.
  induction ks as [|[k v'] ks IH]; simpl.
  - intros [[= <- <-]|[]]. now left.
  - destruct (char_eq_dec k c) as [->|Hne]; simpl.
    + intros [[= <- <-]|H]; [now left|auto].
    + intros [[= <- <-]|H]; [auto|]. destruct (IH H); auto.
Qed.

Lemma keys_set_kid (c : char) (v : node) (ks : list (char * node)) :
  incl (map fst (set_kid c v ks)) (c :: map fst ks) /\
  (NoDup (map fst ks) -> NoDup (map fst (set_kid c v ks))).
Proof.
  induction ks as [|[k v'] ks [IHi IHn]]; simpl.
  - split; [intros x [<-|[]]; now left|intros _; constructor; [intros []|constructor]].
  - destruct (char_eq_dec k c) as [->|Hne]; simpl.
    + split; [intros x [<-|H]; simpl; auto|auto].
    + split.
      * intros x [<-|H]; simpl; [auto|]. destruct (IHi x H) as [<-|H']; simpl; auto.
      * intros Hnd. inversion Hnd as [|? ? Hk Hnd']; subst. constructor; [|exact (IHn Hnd')].
        intros Hin. destruct (IHi k Hin) as [<-|H']; [contradiction|contradiction].
Qed.

Lemma wf_empty_node : wf (Node false [] : node).
Proof. simpl. split; [constructor|exact I]. Qed.

Lemma wf_add_node (w : list char) : forall n, wf n -> wf (add_node n w).
Proof.
  induction w as [|c w IH]; intros [t ks] Hn;
    apply wf_kids in Hn as [Hnd Hs]; apply wf_kids.
  - split; assumption.
  - split.
    + now apply keys_set_kid.
    + intros d s Hin. apply in_set_kid in Hin as [[-> ->]|Hin]; [|eauto].
      apply IH. unfold child; simpl. destruct (assoc c ks) as [sub|] eqn:E.
      * apply assoc_in in E. eauto.
      * apply wf_empty_node.
Qed.

Lemma wf_update (ws : list (list char)) : forall T : Trie,
  wf (data T) -> wf (data (update T ws)).
Proof.
  induction ws as [|w ws IH]; intros T HT; simpl; [exact HT|].
  apply IH. destruct w as [|c w]; [exact HT|]. apply wf_add_node, HT.
Qed.

Lemma wf_construct (ws : list (list char)) : wf (data (construct ws)).
Proof. apply wf_update, wf_empty_node. Qed.

(** [_collect_tokens] lists the terminal paths below a node. *)
Lemma collect_tokens_spec (n : node) : wf n ->
  forall s, In s (collect_tokens n) <-> exists m, walk n s = Some m /\ is_term m = true.
Proof.
  induction n as [t ks IH] using node_ind'.
  intros Hwf. apply wf_kids in Hwf as [Hnd Hsub]. intros s. simpl.
  rewrite in_app_iff.
  assert (Hgo : In s ((fix go (ks0 : list (char * node)) : list (list char) :=
                 match ks0 with
                 | [] => []
                 | (k, sub) :: ks' => map (cons k) (collect_tokens sub) ++ go ks'
                 end) ks) <->
                exists c s' sub, s = c :: s' /\ In (c, sub) ks /\ In s' (collect_tokens sub)).
  { clear Hnd. induction ks as [|[k sub] ks IHks]; simpl.
    - split; [intros []|intros (c & s' & sub & _ & [] & _)].
    - rewrite in_app_iff, in_map_iff, IHks.
      + split.
        * intros [(s' & <- & Hs')|(c & s' & sub' & -> & Hin & Hs')].
          -- exists k, s', sub. auto.
          -- exists c, s', sub'. auto.
        * intros (c & s' & sub' & -> & [[= <- <-]|Hin] & Hs').
          -- left. exists s'. auto.
          -- right. exists c, s', sub'. auto.
      + intros c s' Hin. apply (IH c s'). now right.
      + intros c s' Hin. apply (Hsub c s'). now right. }
  rewrite Hgo. destruct s as [|c s]; simpl.
  - split.
    + intros [H|(c & s' & sub & [=] & _)]. destruct t; simpl in H; [|contradiction].
      now exists (Node true ks).
    + intros (m & [= <-] & Hm). simpl in Hm. subst t. left. now left.
  - unfold child; simpl. split.
    + intros [H|(c' & s' & sub & [= <- <-] & Hin & Hs')].
      * destruct t; simpl in H; [destruct H as [[=]|[]]|contradiction].
      * rewrite (in_assoc _ _ _ Hnd Hin). apply (IH c sub Hin (Hsub c sub Hin) s). exact Hs'.
    + destruct (assoc c ks) as [sub|] eqn:E; [|intros (m & [=] & _)].
      intros Hw. right. apply assoc_in in E. exists c, s, sub.
      split; [reflexivity|]. split; [exact E|]. apply (IH c sub E (Hsub c sub E) s). exact Hw.
Qed.

Lemma walk_app (n : node) (p q : list char) :
  walk n (p ++ q) = match walk n p with Some m => walk m q | None => None end.
Proof.
  revert n. induction p as [|c p IH]; intros n; simpl; [reflexivity|].
  destruct (child n c); [apply IH|reflexivity].
Qed.

(** [_get_node] stops at the longest walkable leading part of the prefix. *)
Lemma get_node_spec (p : list char) : forall n : node,
  exists q r m, p = q ++ r /\ walk n q = Some m /\ get_node char_eq_dec n p = m /\
    (r = [] \/ exists c r', r = c :: r' /\ child m c = None).
Proof.
  induction p as [|c p IH]; intros n; simpl.
  - exists [], [], n. auto.
  - destruct (child n c) as [m|] eqn:E.
    + destruct (IH m) as (q & r & m' & -> & Hw & Hg & Hr).
      exists (c :: q), r, m'. simpl. rewrite E. auto.
    + exists [], (c :: p), n. repeat split; auto. right. exists c, p. auto.
Qed.

Lemma get_node_walk (p : list char) (n m : node) :
  walk n p = Some m -> get_node char_eq_dec n p = m.
Proof.
  revert n. induction p as [|c p IH]; intros n; simpl; [congruence|].
  destruct (child n c); [apply IH|discriminate].
Qed.

Lemma wf_walk (p : list char) : forall n m : node,
  wf n -> walk n p = Some m -> wf m.
Proof.
  induction p as [|c p IH]; intros [t ks] m Hn; simpl; [congruence|].
  unfold child; simpl. destruct (assoc c ks) as [sub|] eqn:E; [|discriminate].
  apply wf_kids in Hn as [_ Hs]. apply assoc_in in E. intros Hw.
  exact (IH sub m (Hs c sub E) Hw).
Qed.

(** The strings listed from the node reached by a walkable [q], each put
    after [prefix]. *)
Lemma extensions_from_walk (ws : list (list char)) (q prefix : list char) (m : node) :
  walk (data (construct ws)) q = Some m ->
  forall x, In x (map (app prefix) (collect_tokens m)) <->
            exists s, x = prefix ++ s /\ In (q ++ s) (tokens (construct ws)).
Proof.
  intros Hq x. unfold construct in *.
  assert (Hwf : wf m) by exact (wf_walk q _ _ (wf_construct ws) Hq).
  rewrite in_map_iff. split.
  - intros (s & <- & Hs). exists s. split; [reflexivity|].
    apply (tokens_agree_update ws _ tokens_agree_empty).
    rewrite walk_app, Hq. exact (proj1 (collect_tokens_spec m Hwf s) Hs).
  - intros (s & -> & Hs). exists s. split; [reflexivity|].
    apply (tokens_agree_update ws _ tokens_agree_empty) in Hs.
    rewrite walk_app, Hq in Hs. exact (proj2 (collect_tokens_spec m Hwf s) Hs).
Qed.

(** C7: [add] is idempotent: adding a word N > 1 times gives the same trie
    (node tree and token set) as adding it once, hence the same [split]. *)
Theorem add_idempotent (T : Trie) (w : list char) (n : nat) :
  Nat.iter (S n) (fun t => add t w) T = add T w /\
  forall text, split char_eq_dec text (Nat.iter (S n) (fun t => add t w) T) =
               split char_eq_dec text (add T w).
Proof.
  assert (H : Nat.iter (S n) (fun t => add t w) T = add T w).
  { induction n as [|n IH]; [reflexivity|].
    change (add (Nat.iter (S n) (fun t => add t w) T) w = add T w).
    rewrite IH. apply add_twice. }
  split; [exact H|]. intros text. now rewrite H.
Qed.

(** C8: after construction and any further [add] calls, a word is in the
    token set iff walking the node tree along it ends at a node carrying
    the termination marker. *)
Theorem tokens_iff_terminal (ws more : list (list char)) (w : list char) :
  let T := update (construct ws) more in
  In w (tokens T) <-> exists m, walk (data T) w = Some m /\ is_term m = true.
Proof.
  apply tokens_agree_update, tokens_agree_update, tokens_agree_empty.
Qed.

(** C3 (amended): [_get_node] walks the longest leading part [q] of the
    prefix the tree can walk, and [extensions(prefix)] is the prefix
    followed by every [s] such that [q + s] is an inserted word.  When the
    prefix is empty or starts an inserted word ([q] is the whole prefix),
    this is exactly the set of inserted words that start with the prefix. *)
Theorem extensions_spec (ws : list (list char)) (prefix : list char) :
  (exists q r, prefix = q ++ r /\ walk (data (construct ws)) q <> None /\
     (r = [] \/ exists c r', r = c :: r' /\ walk (data (construct ws)) (q ++ [c]) = None) /\
     forall x, In x (extensions char_eq_dec (construct ws) prefix) <->
               exists s, x = prefix ++ s /\ In (q ++ s) (tokens (construct ws))) /\
  ((prefix = [] \/ exists w s, In w (tokens (construct ws)) /\ w = prefix ++ s) ->
   forall x, In x (extensions char_eq_dec (construct ws) prefix) <->
             In x (tokens (construct ws)) /\ exists s, x = prefix ++ s).
Proof.
  split.
  - destruct (get_node_spec prefix (data (construct ws))) as (q & r & m & Hp & Hq & Hg & Hr).
    exists q, r. split; [exact Hp|]. split; [congruence|]. split.
    + destruct Hr as [Hr|(c & r' & Hr & Hc)]; [now left|right].
      exists c, r'. split; [exact Hr|]. rewrite walk_app, Hq. simpl. now rewrite Hc.
    + intros x. unfold extensions. rewrite Hg. exact (extensions_from_walk ws q prefix m Hq x).
  - intros Hpre.
    assert (Hw : exists m, walk (data (construct ws)) prefix = Some m).
    { destruct Hpre as [->|(w & s & Hin & ->)]; [now exists (data (construct ws))|].
      apply (tokens_agree_update ws _ tokens_agree_empty) in Hin.
      destruct Hin as (m & Hm & _).
      change (update empty_trie ws) with (construct ws) in Hm. rewrite walk_app in Hm.
      destruct (walk (data (construct ws)) prefix) as [m'|]; [now exists m'|discriminate]. }
    destruct Hw as (m & Hm). intros x. unfold extensions.
    rewrite (get_node_walk prefix _ _ Hm), (extensions_from_walk ws prefix prefix m Hm x).
    split.
    + intros (s & -> & Hs). split; [exact Hs|]. now exists s.
    + intros (Hx & s & ->). now exists s.
Qed.

End TrieProofs.

(** ** Sorted insertion *)

Section OrderedProofs.
Context {A : Type} (lt : A -> A -> bool) (eq_dec : forall a b : A, {a = b} + {a <> b}).

(** [<] is a strict total order. *)
Hypothesis lt_irrefl : forall a, lt a a = false.
Hypothesis lt_trans : forall a b c, lt a b = true -> lt b c = true -> lt a c = true.
Hypothesis lt_total : forall a b, a <> b -> lt a b = true \/ lt b a = true.

Local Abbreviation R := (fun a b => lt a b = true).

Lemma sorted_nth (L : list A) : StronglySorted R L ->
  forall k1 k2 a b, k1 < k2 -> nth_error L k1 = Some a -> nth_error L k2 = Some b -> lt a b = true.
Proof.
  induction L as [|x L IH]; intros HL k1 k2 a b Hk H1 H2; [destruct k1; discriminate|].
  apply StronglySorted_inv in HL as [HL Hx].
  destruct k1 as [|k1], k2 as [|k2]; simpl in *; try lia.
  - injection H1 as <-. apply nth_error_In in H2. rewrite Forall_forall in Hx. exact (Hx b H2).
  - apply (IH HL k1 k2); auto; lia.
Qed.

Lemma sorted_insert_middle (l1 l2 : list A) (t : A) :
  StronglySorted R (l1 ++ l2) -> Forall (fun a => R a t) l1 -> Forall (R t) l2 ->
  StronglySorted R (l1 ++ t :: l2).
Proof.
  induction l1 as [|a l1 IH]; simpl; intros Hs H1 H2.
  - constructor; [exact Hs|exact H2].
  - apply StronglySorted_inv in Hs as [Hs Ha]. inversion H1 as [|? ? Hat H1']; subst.
    constructor; [exact (IH Hs H1' H2)|].
    apply Forall_app in Ha as [Ha1 Ha2]. apply Forall_app. split; [exact Ha1|].
    constructor; [exact Hat|]. rewrite Forall_forall in *. eauto.
Qed.

Lemma sorted_nodup (L : list A) : StronglySorted R L -> NoDup L.
Proof.
  induction L as [|x L IH]; intros HL; constructor.
  - apply StronglySorted_inv in HL as [_ Hx]. rewrite Forall_forall in Hx.
    intros Hin. specialize (Hx x Hin). simpl in Hx. now rewrite lt_irrefl in Hx.
  - apply IH. now apply StronglySorted_inv in HL.
Qed.

Lemma bisect_loop_spec (L : list A) (x : A) : StronglySorted R L ->
  forall fuel lo hi, lo <= hi <= List.length L -> hi - lo <= fuel ->
  (forall k y, k < lo -> nth_error L k = Some y -> lt y x = true) ->
  (forall k y, hi <= k -> nth_error L k = Some y -> lt y x = false) ->
  let i := bisect_loop lt L x fuel lo hi in
  i <= List.length L /\
  (forall k y, k < i -> nth_error L k = Some y -> lt y x = true) /\
  (forall k y, i <= k -> nth_error L k = Some y -> lt y x = false).
Proof.
  intros HL. induction fuel as [|fuel IH]; intros lo hi Hb Hf Hlo Hhi; cbn -[Nat.div Nat.ltb].
  - split; [lia|]. split; [exact Hlo|]. intros k y Hk. apply Hhi. lia.
  - destruct (lo <? hi) eqn:E.
    + apply Nat.ltb_lt in E.
      assert (Hmid : lo <= (lo + hi) / 2 < hi).
      { pose proof (Nat.div_mod (lo + hi) 2 ltac:(lia)).
        pose proof (Nat.mod_upper_bound (lo + hi) 2 ltac:(lia)). lia. }
      destruct (nth_error L ((lo + hi) / 2)) as [y|] eqn:Ey.
      * destruct (lt y x) eqn:Eyx.
        -- apply IH; [lia|lia| |exact Hhi].
           intros k z Hk Hz. destruct (Nat.eq_dec k ((lo + hi) / 2)) as [->|Hne].
           ++ congruence.
           ++ apply (lt_trans z y x); [|exact Eyx].
              apply (sorted_nth L HL k ((lo + hi) / 2)); auto; lia.
        -- apply IH; [lia|lia|exact Hlo|].
           intros k z Hk Hz. destruct (Nat.eq_dec k ((lo + hi) / 2)) as [->|Hne].
           ++ congruence.
           ++ destruct (lt z x) eqn:Ezx; [|reflexivity].
              assert (Hyz : lt y z = true) by (apply (sorted_nth L HL ((lo + hi) / 2) k); auto; lia).
              rewrite (lt_trans y z x Hyz Ezx) in Eyx. discriminate.
      * exfalso. apply nth_error_None in Ey. lia.
    + apply Nat.ltb_ge in E. split; [lia|]. split; [exact Hlo|].
      intros k y Hk. apply Hhi. lia.
Qed.

Lemma bisect_left_spec (L : list A) (x : A) : StronglySorted R L ->
  let i := bisect_left lt L x in
  i <= List.length L /\
  (forall k y, k < i -> nth_error L k = Some y -> lt y x = true) /\
  (forall k y, i <= k -> nth_error L k = Some y -> lt y x = false).
Proof.
  intros HL. apply bisect_loop_spec; [exact HL|lia|lia| |].
  - intros k y Hk. lia.
  - intros k y Hk Hy. apply nth_error_None in Hk. congruence.
Qed.

(** Inserting [t] at an index that separates the elements below [t] from
    those above it. *)
Lemma list_insert_sorted (L : list A) (t : A) (i : nat) : StronglySorted R L ->
  (forall k y, k < i -> nth_error L k = Some y -> lt y t = true) ->
  (forall k y, i <= k -> nth_error L k = Some y -> lt t y = true) ->
  ~ In t L /\ StronglySorted R (list_insert L i t) /\ NoDup (list_insert L i t) /\
  Permutation (list_insert L i t) (t :: L).
Proof.
  intros HL Hlo Hhi.
  assert (H1 : Forall (fun a => R a t) (firstn i L)).
  { apply Forall_forall. intros a Ha. apply In_nth_error in Ha as [k Hk].
    rewrite nth_error_firstn in Hk. destruct (k <? i) eqn:E; [|discriminate].
    apply Nat.ltb_lt in E. exact (Hlo k a E Hk). }
  assert (H2 : Forall (R t) (skipn i L)).
  { apply Forall_forall. intros b Hb. apply In_nth_error in Hb as [k Hk].
    rewrite nth_error_skipn in Hk. apply (Hhi (i + k)); [lia|exact Hk]. }
  assert (HS : StronglySorted R (list_insert L i t)).
  { apply sorted_insert_middle; [now rewrite firstn_skipn|exact H1|exact H2]. }
  split; [|split; [exact HS|split; [exact (sorted_nodup _ HS)|]]].
  - rewrite <- (firstn_skipn i L). intros Hin. apply in_app_or in Hin as [Hin|Hin].
    + rewrite Forall_forall in H1. specialize (H1 t Hin). simpl in H1. now rewrite lt_irrefl in H1.
    + rewrite Forall_forall in H2. specialize (H2 t Hin). simpl in H2. now rewrite lt_irrefl in H2.
  - unfold list_insert. rewrite <- Permutation_middle. now rewrite firstn_skipn.
Qed.

Lemma insert_one_token_sorted (L : list A) (t : A) : StronglySorted R L ->
  (In t L -> insert_one_token_to_ordered_list lt eq_dec L t = L) /\
  (~ In t L ->
     insert_one_token_to_ordered_list lt eq_dec L t = list_insert L (bisect_left lt L t) t /\
     StronglySorted R (insert_one_token_to_ordered_list lt eq_dec L t) /\
     NoDup (insert_one_token_to_ordered_list lt eq_dec L t) /\
     Permutation (insert_one_token_to_ordered_list lt eq_dec L t) (t :: L)).
Proof.
  intros HL. destruct (bisect_left_spec L t HL) as (Hle & Hlo & Hge).
  set (i := bisect_left lt L t) in *.
  assert (Hhi_of : (forall y, nth_error L i = Some y -> y <> t) ->
                   forall k y, i <= k -> nth_error L k = Some y -> lt t y = true).
  { intros Hi k y Hk Hy. destruct (Nat.eq_dec k i) as [->|Hne].
    - destruct (lt_total t y) as [H|H]; [intros <-; exact (Hi t Hy eq_refl)|exact H|].
      rewrite (Hge i y (le_n i) Hy) in H. discriminate.
    - destruct (nth_error L i) as [z|] eqn:Ez.
      + assert (Hzy : lt z y = true) by (apply (sorted_nth L HL i k); auto; lia).
        destruct (lt_total t z) as [H|H]; [intros <-; exact (Hi t eq_refl eq_refl)|exact (lt_trans _ _ _ H Hzy)|].
        rewrite (Hge i z (le_n i) Ez) in H. discriminate.
      + apply nth_error_None in Ez. assert (Hk' : k < List.length L) by (apply nth_error_Some; congruence).
        lia. }
  unfold insert_one_token_to_ordered_list. fold i.
  destruct (nth_error L i) as [y|] eqn:Ey.
  - destruct (eq_dec y t) as [->|Hne].
    + split; [reflexivity|]. intros Hnin. exfalso. exact (Hnin (nth_error_In _ _ Ey)).
    + assert (Hhi : forall k z, i <= k -> nth_error L k = Some z -> lt t z = true)
        by (apply Hhi_of; intros z Hz; congruence).
      destruct (list_insert_sorted L t i HL Hlo Hhi) as (Hnin & Hs & Hnd & Hp).
      split; [intros Hin; contradiction|]. intros _. auto.
  - assert (Hhi : forall k z, i <= k -> nth_error L k = Some z -> lt t z = true)
      by (apply Hhi_of; intros z Hz; discriminate).
    destruct (list_insert_sorted L t i HL Hlo Hhi) as (Hnin & Hs & Hnd & Hp).
    split; [intros Hin; contradiction|]. intros _. auto.
Qed.

End OrderedProofs.

(** Python's [<] on [str] (code-point lexicographic order) on ASCII
    strings: [String.ltb] is a strict total order. *)

Lemma ascii_compare_refl (a : ascii) : Ascii.compare a a = Eq.
Proof. unfold Ascii.compare. apply N.compare_refl. Qed.

Lemma ascii_compare_lt_trans (a b c : ascii) :
  Ascii.compare a b = Lt -> Ascii.compare b c = Lt -> Ascii.compare a c = Lt.
Proof.
  unfold Ascii.compare. rewrite !N.compare_lt_iff. apply N.lt_trans.
Qed.

Lemma string_compare_refl (s : string) : String.compare s s = Eq.
Proof. induction s as [|a s IH]; simpl; [reflexivity|]. now rewrite ascii_compare_refl. Qed.

Lemma string_compare_lt_trans (s1 s2 s3 : string) :
  String.compare s1 s2 = Lt -> String.compare s2 s3 = Lt -> String.compare s1 s3 = Lt.
Proof.
  revert s2 s3. induction s1 as [|a s1 IH]; intros [|b s2] [|c s3]; simpl;
    try discriminate; try reflexivity.
  destruct (Ascii.compare a b) eqn:Eab; try discriminate;
  destruct (Ascii.compare b c) eqn:Ebc; try discriminate.
  - apply Ascii.compare_eq_iff in Eab, Ebc. subst. rewrite ascii_compare_refl. apply IH.
  - apply Ascii.compare_eq_iff in Eab. subst. now rewrite Ebc.
  - apply Ascii.compare_eq_iff in Ebc. subst. now rewrite Eab.
  - now rewrite (ascii_compare_lt_trans _ _ _ Eab Ebc).
Qed.

Lemma string_ltb_irrefl (s : string) : String.ltb s s = false.
Proof. unfold String.ltb. now rewrite string_compare_refl. Qed.

Lemma string_ltb_trans (a b c : string) :
  String.ltb a b = true -> String.ltb b c = true -> String.ltb a c = true.
Proof.
  unfold String.ltb.
  destruct (String.compare a b) eqn:E1; try discriminate.
  destruct (String.compare b c) eqn:E2; try discriminate.
  now rewrite (string_compare_lt_trans _ _ _ E1 E2).
Qed.

Lemma string_ltb_total (a b : string) :
  a <> b -> String.ltb a b = true \/ String.ltb b a = true.
Proof.
  intros Hne. unfold String.ltb. rewrite (String.compare_antisym b a).
  destruct (String.compare a b) eqn:E; simpl; auto.
  apply String.compare_eq_iff in E. contradiction.
Qed.

(** C10: on a sorted duplicate-free list of strings,
    [_insert_one_token_to_ordered_list] leaves the list unchanged when the
    token is present; otherwise it inserts it at [bisect_left]'s index and
    the list stays sorted and duplicate-free, with the token added. *)
Theorem insert_unique_sorted_spec (L : list string) (t : string) :
  StronglySorted (fun a b => String.ltb a b = true) L ->
  (In t L -> insert_one_token_to_ordered_list String.ltb string_dec L t = L) /\
  (~ In t L ->
     insert_one_token_to_ordered_list String.ltb string_dec L t =
       list_insert L (bisect_left String.ltb L t) t /\
     StronglySorted (fun a b => String.ltb a b = true)
       (insert_one_token_to_ordered_list String.ltb string_dec L t) /\
     NoDup (insert_one_token_to_ordered_list String.ltb string_dec L t) /\
     Permutation (insert_one_token_to_ordered_list String.ltb string_dec L t) (t :: L)).
Proof.
  apply insert_one_token_sorted.
  - exact string_ltb_irrefl.
  - exact string_ltb_trans.
  - exact string_ltb_total.
Qed.

Lemma insert_unique_sorted_spec_witness :
  StronglySorted (fun a b => String.ltb a b = true) ["a"; "c"; "e"]%string /\
  ((In "d"%string ["a"; "c"; "e"]%string ->
    insert_one_token_to_ordered_list String.ltb string_dec ["a"; "c"; "e"]%string "d"%string
      = ["a"; "c"; "e"]%string) /\
   (~ In "d"%string ["a"; "c"; "e"]%string ->
     insert_one_token_to_ordered_list String.ltb string_dec ["a"; "c"; "e"]%string "d"%string =
       list_insert ["a"; "c"; "e"]%string (bisect_left String.ltb ["a"; "c"; "e"]%string "d"%string) "d"%string /\
     StronglySorted (fun a b => String.ltb a b = true)
       (insert_one_token_to_ordered_list String.ltb string_dec ["a"; "c"; "e"]%string "d"%string) /\
     NoDup (insert_one_token_to_ordered_list String.ltb string_dec ["a"; "c"; "e"]%string "d"%string) /\
     Permutation (insert_one_token_to_ordered_list String.ltb string_dec ["a"; "c"; "e"]%string "d"%string)
       ("d"%string :: ["a"; "c"; "e"]%string))).
Proof.
  assert (H : StronglySorted (fun a b => String.ltb a b = true) ["a"; "c"; "e"]%string)
    by (repeat constructor).
  split; [exact H|exact (insert_unique_sorted_spec _ _ H)].
Defined.

(** ** The offsets of [split] never go backwards *)

Section SplitProofs.
Context {char : Type} (char_eq_dec : forall a b : char, {a = b} + {a <> b}).
Variable text : list char.

Local Abbreviation node := (@node char).
Local Abbreviation advance := (advance char_eq_dec).
Local Abbreviation lookahead := (lookahead char_eq_dec text).
Local Abbreviation scan := (scan char_eq_dec text).
Local Abbreviation step := (step char_eq_dec text).
Local Abbreviation main_loop := (main_loop char_eq_dec text).
Local Abbreviation len := (List.length text).
Local Abbreviation loop_inv := (loop_inv text).

Lemma ss_snoc {B : Type} (Rel : B -> B -> Prop) (l : list B) (a : B) :
  StronglySorted Rel l -> Forall (fun x => Rel x a) l -> StronglySorted Rel (l ++ [a]).
Proof.
  induction l as [|x l IH]; simpl; intros Hs Ha.
  - repeat constructor.
  - apply StronglySorted_inv in Hs as [Hs Hx]. inversion Ha; subst.
    constructor; [auto|]. apply Forall_app. split; [exact Hx|]. now constructor.
Qed.

Lemma advance_cases (lookstart : nat) (rest : list char) : forall p li acc,
  advance lookstart p li rest acc = acc \/
  exists k, advance lookstart p li rest acc = (lookstart, Some k, k) /\
            li < k <= li + List.length rest.
Proof.
  induction rest as [|c rest IH]; intros p li acc; simpl; [now left|].
  destruct (child char_eq_dec p c) as [p'|]; [|now left].
  destruct (IH p' (S li) (if is_term p' then (lookstart, Some (S li), S li) else acc))
    as [H|(k & H & Hk)].
  - rewrite H. destruct (is_term p'); [right; exists (S li); split; [reflexivity|lia]|now left].
  - right. exists k. split; [exact H|lia].
Qed.

Lemma lookahead_break (current : nat) (es : list (nat * node)) start e k :
  match es with [] => True | (l, _) :: _ => start < l end ->
  lookahead current es start e k = (start, e, k).
Proof.
  destruct es as [|[l lp] es]; simpl; [reflexivity|].
  intros H. apply Nat.ltb_lt in H. now rewrite H.
Qed.

Lemma lookahead_spec (current : nat) (start0 : nat) (ptr : node) (post : list (nat * node)) :
  is_term ptr = true -> S current <= len ->
  forall pre e k,
  StronglySorted Nat.lt (map fst (pre ++ (start0, ptr) :: post)) ->
  exists s' k', lookahead current (pre ++ (start0, ptr) :: post) start0 e k = (s', Some k', k') /\
    In s' (map fst (pre ++ [(start0, ptr)])) /\ s' <= start0 /\ current <= k' <= len.
Proof.
  intros Hterm Hcur. induction pre as [|[l lp] pre IH]; intros e k Hs.
  - simpl in Hs |- *. rewrite Nat.ltb_irrefl, Hterm.
    apply StronglySorted_inv in Hs as [_ Hpost].
    assert (Hb : forall e' k', lookahead current post start0 e' k' = (start0, e', k')).
    { intros e' k'. apply lookahead_break. destruct post as [|[l lp] post]; [exact I|].
      inversion Hpost; assumption. }
    destruct (advance_cases start0 (skipn current text) ptr current (start0, Some current, current))
      as [H|(k' & H & Hk')]; rewrite H, Hb.
    + exists start0, current. repeat split; [now left|lia..].
    + exists start0, k'. rewrite length_skipn in Hk'. repeat split; [now left|lia..].
  - simpl in Hs. apply StronglySorted_inv in Hs as [Hs Hl].
    rewrite map_app in Hl. simpl in Hl. apply Forall_app in Hl as [Hpre Hl].
    inversion Hl as [|? ? Hlt _]; subst.
    assert (Hb : forall e' k', lookahead current (pre ++ (start0, ptr) :: post) l e' k' = (l, e', k')).
    { intros e' k'. apply lookahead_break. destruct pre as [|[l' lp'] pre]; simpl in *; [exact Hlt|].
      inversion Hpre as [|? ? Hlt' _]; assumption. }
    change ((l, lp) :: pre ++ (start0, ptr) :: post) with ([(l, lp)] ++ pre ++ (start0, ptr) :: post).
    simpl. replace (start0 <? l) with false by (symmetry; apply Nat.ltb_ge; lia).
    replace (l <? start0) with true by (symmetry; apply Nat.ltb_lt; lia).
    destruct (is_term lp).
    + destruct (advance_cases l (skipn (S current) text) lp (S current) (l, Some (S current), S current))
        as [H|(k' & H & Hk')]; rewrite H, Hb.
      * exists l, (S current). repeat split; [now left|lia..].
      * exists l, k'. rewrite length_skipn in Hk'. repeat split; [now left|lia..].
    + destruct (advance_cases l (skipn (S current) text) lp (S current) (start0, Some (S current), k))
        as [H|(k' & H & Hk')]; rewrite H.
      * destruct (IH (Some (S current)) k Hs) as (s' & k'' & H1 & H2 & H3).
        exists s', k''. split; [exact H1|]. split; [now right|exact H3].
      * rewrite Hb. exists l, k'. rewrite length_skipn in Hk'. repeat split; [now left|lia..].
Qed.

Lemma scan_spec (current : nat) (cc : char) (skip : nat) :
  S current <= len ->
  forall todo done to_remove e offsets,
  StronglySorted Nat.lt (map fst (done ++ todo)) ->
  (forall k, In k (map fst (done ++ todo)) -> skip <= k < current) ->
  exists so, scan current cc done todo to_remove skip e offsets = Ok so /\
    map fst (so_states so) = map fst (done ++ todo) /\
    (so_reset so = false -> so_offsets so = offsets /\ so_skip so = skip) /\
    (so_reset so = true -> exists s' k', so_offsets so = offsets ++ [s'; k'] /\
       so_skip so = k' /\ skip <= s' /\ s' < current <= k' /\ k' <= len).
Proof.
  intros Hcur. induction todo as [|[start ptr] todo IH]; intros done to_remove e offsets Hs Hk.
  - simpl. eexists. split; [reflexivity|]. simpl. rewrite app_nil_r.
    split; [reflexivity|]. split; [auto|discriminate].
  - simpl. destruct (is_term ptr) eqn:Ht.
    + destruct (lookahead_spec current start ptr todo Ht Hcur done e skip Hs)
        as (s' & k' & Hla & Hin & Hle & Hk').
      rewrite Hla. eexists. split; [reflexivity|]. simpl.
      split; [reflexivity|]. split; [discriminate|]. intros _.
      exists s', k'. repeat split; try reflexivity; try lia.
      * apply Hk. rewrite map_app in Hin |- *. apply in_app_or in Hin as [Hin|[<-|[]]];
          apply in_or_app; [now left|right; now left].
      * assert (skip <= s' < current); [|lia].
        apply Hk. rewrite map_app in Hin |- *. apply in_app_or in Hin as [Hin|[<-|[]]];
          apply in_or_app; [now left|right; now left].
    + assert (Hkeys : forall p, map fst ((done ++ [(start, p)]) ++ todo) =
                                 map fst (done ++ (start, ptr) :: todo)).
      { intros p. rewrite <- app_assoc. rewrite !map_app. reflexivity. }
      destruct (child char_eq_dec ptr cc) as [p|].
      * destruct (IH (done ++ [(start, p)]) to_remove e offsets) as (so & H1 & H2 & H3 & H4);
          [now rewrite Hkeys|now rewrite Hkeys|].
        exists so. rewrite <- (Hkeys p). auto.
      * destruct (IH (done ++ [(start, ptr)]) (to_remove ++ [start]) e offsets) as (so & H1 & H2 & H3 & H4);
          [now rewrite Hkeys|now rewrite Hkeys|].
        exists so. rewrite <- (Hkeys ptr). auto.
Qed.

Lemma del_key_keys (k : nat) (s : list (nat * node)) :
  StronglySorted Nat.lt (map fst s) ->
  StronglySorted Nat.lt (map fst (del_key k s)) /\ incl (map fst (del_key k s)) (map fst s).
Proof.
  induction s as [|[k' v] s IH]; simpl; intros Hs; [split; [constructor|apply incl_refl]|].
  apply StronglySorted_inv in Hs as [Hs Hk'].
  destruct (k' =? k).
  - split; [exact Hs|]. apply incl_tl, incl_refl.
  - destruct (IH Hs) as [H1 H2]. split.
    + simpl. constructor; [exact H1|]. rewrite Forall_forall in *. intros x Hx. apply Hk', H2, Hx.
    + simpl. apply incl_cons; [now left|]. apply incl_tl, H2.
Qed.

Lemma del_keys_keys (ks : list nat) : forall s : list (nat * node),
  StronglySorted Nat.lt (map fst s) ->
  StronglySorted Nat.lt (map fst (fold_left (fun s k => del_key k s) ks s)) /\
  incl (map fst (fold_left (fun s k => del_key k s) ks s)) (map fst s).
Proof.
  induction ks as [|k ks IH]; intros s Hs; simpl; [split; [exact Hs|apply incl_refl]|].
  destruct (del_key_keys k s Hs) as [H1 H2]. destruct (IH _ H1) as [H3 H4].
  split; [exact H3|]. eapply incl_tran; eassumption.
Qed.

Lemma set_key_fresh (k : nat) (v : node) (s : list (nat * node)) :
  (forall k', In k' (map fst s) -> k' < k) -> set_key k v s = s ++ [(k, v)].
Proof.
  induction s as [|[k' v'] s IH]; simpl; intros Hlt; [reflexivity|].
  replace (k' =? k) with false by (symmetry; apply Nat.eqb_neq; specialize (Hlt k' (or_introl eq_refl)); lia).
  f_equal. apply IH. auto.
Qed.

Lemma step_spec (current : nat) (cc : char) (st : lstate) :
  S current <= len -> loop_inv current st ->
  exists st', step current cc st = Ok st' /\ loop_inv (S current) st' /\ ls_self st' = ls_self st.
Proof.
  intros Hcur (Hs & Hk & Ho & Hos & Hsk). unfold step.
  destruct (negb (ls_skip st =? 0) && (current <? ls_skip st)).
  { exists st. split; [reflexivity|]. split; [|reflexivity].
    unfold loop_inv. split; [exact Hs|split; [|auto]].
    intros k0 Hin. specialize (Hk k0 Hin). lia. }
  destruct (scan_spec current cc (ls_skip st) Hcur (ls_states st) [] [] (ls_end st) (ls_offsets st) Hs Hk)
    as (so & Hscan & Hkeys & Hnr & Hr).
  rewrite Hscan. eexists. split; [reflexivity|]. split; [|reflexivity].
  unfold loop_inv; cbn [ls_states ls_offsets ls_skip].
  destruct (so_reset so).
  - destruct (Hr eq_refl) as (s' & k' & -> & -> & H1 & H2 & H3).
    assert (Hst : forall x, In x (map fst (if k' <=? current then
               match child char_eq_dec (data (ls_self st)) cc with
               | Some n => set_key current n [] | None => [] end else [])) -> x = current /\ k' <= current).
    { intros x. destruct (k' <=? current) eqn:E; [|intros []].
      apply Nat.leb_le in E. destruct (child char_eq_dec (data (ls_self st)) cc); simpl; [|intros []].
      intros [<-|[]]. auto. }
    split; [|split; [|split; [|split]]].
    + destruct (k' <=? current); [destruct (child char_eq_dec (data (ls_self st)) cc)|]; repeat constructor.
    + intros x Hx. destruct (Hst x Hx) as [-> Hle]. lia.
    + change (ls_offsets st ++ [s'; k']) with (ls_offsets st ++ [s'] ++ [k']).
      rewrite app_assoc. apply ss_snoc; [apply ss_snoc; [exact Ho|]|].
      * rewrite Forall_forall in *. intros x Hx. specialize (Hos x Hx). lia.
      * apply Forall_app. split; [|repeat constructor; lia].
        rewrite Forall_forall in *. intros x Hx. specialize (Hos x Hx). lia.
    + apply Forall_app. split; [|repeat constructor; lia].
      rewrite Forall_forall in *. intros x Hx. specialize (Hos x Hx). lia.
    + exact H3.
  - destruct (Hnr eq_refl) as [-> ->].
    rewrite app_nil_l in Hkeys.
    destruct (del_keys_keys (so_remove so) (so_states so)) as [Hds Hdi]; [now rewrite Hkeys|].
    set (ds := fold_left (fun s k => del_key k s) (so_remove so) (so_states so)) in *.
    assert (Hdk : forall k, In k (map fst ds) -> ls_skip st <= k < current).
    { intros k Hin. apply Hk. rewrite <- Hkeys. apply Hdi, Hin. }
    destruct (ls_skip st <=? current) eqn:E;
      [destruct (child char_eq_dec (data (ls_self st)) cc) as [n|]|].
    + apply Nat.leb_le in E.
      rewrite set_key_fresh by (intros k' Hin; specialize (Hdk k' Hin); lia).
      rewrite map_app. simpl.
      split; [|split; [|split; [exact Ho|split; [exact Hos|exact Hsk]]]].
      * apply ss_snoc; [exact Hds|]. rewrite Forall_forall. intros x Hx. specialize (Hdk x Hx). lia.
      * intros x Hx. apply in_app_or in Hx as [Hx|[<-|[]]]; [specialize (Hdk x Hx)|]; lia.
    + split; [exact Hds|split; [|split; [exact Ho|split; [exact Hos|exact Hsk]]]].
      intros x Hx. specialize (Hdk x Hx). lia.
    + split; [exact Hds|split; [|split; [exact Ho|split; [exact Hos|exact Hsk]]]].
      intros x Hx. specialize (Hdk x Hx). lia.
Qed.

Lemma main_loop_spec (cs : list char) : forall current st,
  current + List.length cs = len -> loop_inv current st ->
  exists st', main_loop current cs st = Ok st' /\ loop_inv len st' /\ ls_self st' = ls_self st.
Proof.
  induction cs as [|c cs IH]; intros current st Hlen Hinv; simpl in *.
  - exists st. rewrite Nat.add_0_r in Hlen. subst. auto.
  - destruct (step_spec current c st ltac:(lia) Hinv) as (st1 & -> & Hinv1 & Hself1).
    destruct (IH (S current) st1 ltac:(lia) Hinv1) as (st2 & H2 & Hinv2 & Hself2).
    exists st2. rewrite H2. split; [reflexivity|]. split; [exact Hinv2|congruence].
Qed.

Lemma final_cut_spec (states : list (nat * node)) : forall (offsets : list nat) (B : nat),
  StronglySorted le offsets -> Forall (fun o => o <= B) offsets ->
  (forall k, In k (map fst states) -> B <= k < len) -> B <= len ->
  StronglySorted le (final_cut text states offsets) /\
  Forall (fun o => o <= len) (final_cut text states offsets).
Proof.
  induction states as [|[start ptr] states IH]; intros offsets B Hs Hb Hk HB; simpl.
  - split; [exact Hs|]. rewrite Forall_forall in *. intros x Hx. specialize (Hb x Hx). lia.
  - assert (Hst : B <= start < len) by (apply Hk; now left).
    destruct (is_term ptr).
    + change (offsets ++ [start; len]) with (offsets ++ [start] ++ [len]). rewrite app_assoc.
      split.
      * apply ss_snoc; [apply ss_snoc; [exact Hs|]|].
        -- rewrite Forall_forall in *. intros x Hx. specialize (Hb x Hx). lia.
        -- apply Forall_app. split; [|repeat constructor; lia].
           rewrite Forall_forall in *. intros x Hx. specialize (Hb x Hx). lia.
      * apply Forall_app. split; [apply Forall_app; split|repeat constructor].
        -- rewrite Forall_forall in *. intros x Hx. specialize (Hb x Hx). lia.
        -- repeat constructor. lia.
    + apply (IH offsets B Hs Hb); [|exact HB]. intros k Hin. apply Hk. now right.
Qed.

Lemma firstn_slice {B : Type} (l : list B) : forall s e,
  s <= e -> firstn s l ++ firstn (e - s) (skipn s l) = firstn e l.
Proof.
  induction l as [|x l IH]; intros s e Hse.
  - now rewrite !firstn_nil, skipn_nil, firstn_nil.
  - destruct s as [|s]; [now rewrite Nat.sub_0_r|].
    destruct e as [|e]; [lia|]. simpl. f_equal. apply IH. lia.
Qed.

Lemma cut_loop_spec (fin : nat) (offs : list nat) : forall start acc,
  StronglySorted le (start :: offs ++ [fin]) -> List.concat acc = firstn start text ->
  exists toks, cut_loop text start (offs ++ [fin]) acc = Ok toks /\ List.concat toks = firstn fin text.
Proof.
  induction offs as [|o offs IH]; intros start acc Hs Hacc; simpl.
  - apply StronglySorted_inv in Hs as [_ Hf]. inversion Hf as [|? ? Hle _]; subst.
    replace (fin <? start) with false by (symmetry; apply Nat.ltb_ge; exact Hle).
    destruct (start =? fin) eqn:E.
    + apply Nat.eqb_eq in E. subst. exists acc. auto.
    + simpl. eexists. split; [reflexivity|]. rewrite concat_app, Hacc. simpl.
      rewrite app_nil_r. unfold slice. apply firstn_slice. exact Hle.
  - apply StronglySorted_inv in Hs as [Hs Hf]. inversion Hf as [|? ? Hle _]; subst.
    replace (o <? start) with false by (symmetry; apply Nat.ltb_ge; exact Hle).
    destruct (start =? o) eqn:E.
    + apply Nat.eqb_eq in E. subst. apply IH; [exact Hs|exact Hacc].
    + apply IH; [exact Hs|]. rewrite concat_app, Hacc. simpl.
      rewrite app_nil_r. unfold slice. apply firstn_slice. exact Hle.
Qed.

(** Everything [split] computes on [text]: it returns, the offsets it
    hands to [cut_text] never go backwards, the fragments concatenate to
    the text, and the Trie object is the one it was called on. *)
Lemma split_run_spec (T : Trie) :
  exists offs toks, split_offsets char_eq_dec text T = Ok offs /\
    StronglySorted le (0 :: offs ++ [len]) /\
    split_run char_eq_dec text T = Ok (toks, T) /\ List.concat toks = text.
Proof.
  assert (Hinv0 : loop_inv 0 (mkL T [] [0] 0 None)).
  { unfold loop_inv; simpl. split; [constructor|]. split; [intros k []|].
    split; [repeat constructor|]. split; [repeat constructor|lia]. }
  destruct (main_loop_spec text 0 (mkL T [] [0] 0 None) eq_refl Hinv0) as (st & Hml & Hinv & Hself).
  destruct Hinv as (Hs & Hk & Ho & Hos & Hsk).
  destruct (final_cut_spec (ls_states st) (ls_offsets st) (ls_skip st) Ho Hos Hk Hsk) as [Hfs Hfl].
  set (offs := final_cut text (ls_states st) (ls_offsets st)) in *.
  assert (Hsorted : StronglySorted le (0 :: offs ++ [len])).
  { constructor; [apply ss_snoc; [exact Hfs|exact Hfl]|].
    apply Forall_forall. intros x _. lia. }
  destruct (cut_loop_spec len offs 0 [] Hsorted eq_refl) as (toks & Hcut & Hcat).
  exists offs, toks. unfold split_offsets, split_run. rewrite Hml.
  split; [reflexivity|]. split; [exact Hsorted|]. split.
  - unfold cut_text. fold offs. rewrite Hcut. now rewrite Hself.
  - rewrite Hcat. apply firstn_all.
Qed.

(** C1: for every trie and text, [split] returns fragments whose
    concatenation in order is the text. *)
Theorem split_concat (T : Trie) :
  exists toks, split char_eq_dec text T = Ok toks /\ List.concat toks = text.
Proof.
  destruct (split_run_spec T) as (offs & toks & _ & _ & Hrun & Hcat).
  exists toks. unfold split. rewrite Hrun. auto.
Qed.

(** C4: [split] never raises: the cut offsets it hands to [cut_text],
    from [0] to [len(text)], never decrease, so the inverted-span branch
    of [cut_text] is not reached, and the call returns fragments. *)
Theorem split_no_exception (T : Trie) :
  exists offs toks, split_offsets char_eq_dec text T = Ok offs /\
    StronglySorted le (0 :: offs ++ [len]) /\ split char_eq_dec text T = Ok toks.
Proof.
  destruct (split_run_spec T) as (offs & toks & Hoffs & Hs & Hrun & _).
  exists offs, toks. unfold split. rewrite Hrun. auto.
Qed.

(** C9: [split] leaves the Trie object as it was: the method, run on
    [self], returns with [self] unchanged, so later calls see the same
    trie. *)
Theorem split_preserves_trie (T : Trie) :
  exists toks, split_run char_eq_dec text T = Ok (toks, T).
Proof.
  destruct (split_run_spec T) as (offs & toks & _ & _ & Hrun & _).
  exists toks. exact Hrun.
Qed.

End SplitProofs.

(** ** Concrete runs *)

Section Concrete.


(** C2: with the vocabulary [{"extra_id_1", "extra_id_100"}], the
    lookahead takes the longest continuation: [split("a extra_id_100 b")]
    is [["a "; "extra_id_100"; " b"]], so no fragment ["extra_id_1"]
    followed by ["00 b"] is produced. *)
Theorem split_extra_id_longest :
  split ascii_dec (str "a extra_id_100 b")
        (construct ascii_dec [str "extra_id_1"; str "extra_id_100"]) =
  Ok [str "a "; str "extra_id_100"; str " b"].
Proof. vm_compute. reflexivity. Qed.

(** C5: [cut_text] does not skip an inverted span: on the text ["ab"]
    with offsets [[2; 1]] (cut list [[2; 1; 2]]), the fragment ["ab"] is
    taken, then [start = 2 > 1 = end] reaches [logger.error], and [logger]
    is not bound in the module, so the call raises [NameError]. *)
Theorem cut_text_inverted_span_raises :
  cut_text (str "ab") [2; 1] = Raise NameError.
Proof. vm_compute. reflexivity. Qed.

(** C3, counterexample: over the vocabulary [{"ab"}], the prefix ["ax"]
    leaves the tree after ["a"]; [extensions("ax")] is [["axb"]], and
    ["axb"] is not an inserted word, so the result is not the set of
    inserted words starting with the prefix. *)
Lemma extensions_departing_prefix :
  extensions ascii_dec (construct ascii_dec [str "ab"]) (str "ax") = [str "axb"] /\
  ~ (forall x, In x (extensions ascii_dec (construct ascii_dec [str "ab"]) (str "ax")) <->
       In x (tokens (construct ascii_dec [str "ab"])) /\ exists s, x = str "ax" ++ s).
Proof.
  split; [vm_compute; reflexivity|].
  intros H. destruct (proj1 (H (str "axb"))) as [Hin _].
  - vm_compute. left. reflexivity.
  - vm_compute in Hin. destruct Hin as [E|[]]. discriminate E.
Qed.

(** Witness of C3 (amended), on the example of the docstring. *)
Lemma extensions_spec_witness :
  (str "app" = [] \/ exists w s,
     In w (tokens (construct ascii_dec [str "apple"; str "app"; str "application"])) /\
     w = str "app" ++ s) /\
  (forall x, In x (extensions ascii_dec
                     (construct ascii_dec [str "apple"; str "app"; str "application"]) (str "app")) <->
     In x (tokens (construct ascii_dec [str "apple"; str "app"; str "application"])) /\
     exists s, x = str "app" ++ s).
Proof.
  assert (H : str "app" = [] \/ exists w s,
     In w (tokens (construct ascii_dec [str "apple"; str "app"; str "application"])) /\
     w = str "app" ++ s).
  { right. exists (str "app"), []. split; [|reflexivity].
    vm_compute. right. left. reflexivity. }
  split; [exact H|].
  exact (proj2 (extensions_spec ascii_dec [str "apple"; str "app"; str "application"] (str "app")) H).
Defined.

(** C6: over the vocabulary [{"abd", "b"}], the text ["abxd"] holds the
    word ["b"] at [[1, 2)], and no longer span around it ([[k, m)] with
    [k <= 1 <= 2 <= m]) is a vocabulary word; yet [split("abxd")] is the
    single fragment [["abxd"]].  At [current = 2] the state started at [0]
    fails on ["x"] and keeps its un-advanced pointer (node ["ab"]); the
    lookahead for the terminal state [1] still reads it at [current + 1],
    walks ["d"] to ["abd"] and records the cut pair [(0, 4)]. *)
Theorem split_stale_pointer_run :
  In (slice (str "abxd") 1 2) (tokens (construct ascii_dec [str "abd"; str "b"])) /\
  (forall k m, k <= 1 -> 2 <= m <= 4 ->
     In (slice (str "abxd") k m) (tokens (construct ascii_dec [str "abd"; str "b"])) ->
     k = 1 /\ m = 2) /\
  split ascii_dec (str "abxd") (construct ascii_dec [str "abd"; str "b"]) = Ok [str "abxd"].
Proof.
  split; [vm_compute; right; left; reflexivity|].
  split; [|vm_compute; reflexivity].
  intros k m Hk Hm Hin.
  destruct k as [|[|k]]; [|split; [reflexivity|]|lia];
    (destruct m as [|[|[|[|[|m]]]]]; try lia);
    vm_compute in Hin; repeat (destruct Hin as [Hin|Hin]; [discriminate Hin|]); destruct Hin.
Qed.

End Concrete.

(** * Further properties of the trie *)

Section TrieExtras.
Context {char : Type} (char_eq_dec : forall a b : char, {a = b} + {a <> b}).

Local Abbreviation node := (@node char).
Local Abbreviation Trie := (@Trie char).
Local Abbreviation child := (child char_eq_dec).
Local Abbreviation add := (add char_eq_dec).
Local Abbreviation update := (update char_eq_dec).
Local Abbreviation construct := (construct char_eq_dec).
Local Abbreviation walk := (walk char_eq_dec).
Local Abbreviation init_args := (init_args char_eq_dec).

(** ** The token set *)

Lemma tokens_add_in (T : Trie) (v w : list char) :
  In w (tokens (add T v)) <-> In w (tokens T) \/ (w = v /\ v <> []).
Proof.
  destruct v as [|c v]; simpl.
  - split; [auto|]. intros [H|[_ H]]; [exact H|now contradiction H].
  - unfold set_add. destruct (in_dec (word_eq_dec char_eq_dec) (c :: v) (tokens T)) as [Hin|Hin].
    + split; [auto|]. intros [H|[-> _]]; auto.
    + rewrite in_app_iff. simpl. split.
      * intros [H|[H|[]]]; [now left|right; split; [congruence|discriminate]].
      * intros [H|[-> _]]; auto.
Qed.

Lemma tokens_update_in (ws : list (list char)) : forall (T : Trie) (w : list char),
  In w (tokens (update T ws)) <-> In w (tokens T) \/ (In w ws /\ w <> []).
Proof.
  induction ws as [|v ws IH]; intros T w; simpl.
  - split; [auto|]. intros [H|[[] _]]. exact H.
  - rewrite IH, tokens_add_in. split.
    + intros [[H|[-> Hv]]|[Hin Hw]]; auto.
    + intros [H|[[->|Hin] Hw]]; auto.
Qed.

Lemma nodup_add (T : Trie) (v : list char) : NoDup (tokens T) -> NoDup (tokens (add T v)).
Proof.
  intros Hnd. destruct v as [|c v]; [exact Hnd|]. simpl. unfold set_add.
  destruct (in_dec (word_eq_dec char_eq_dec) (c :: v) (tokens T)) as [Hin|Hin]; [exact Hnd|].
  apply NoDup_app; [exact Hnd|repeat constructor; auto|].
  intros a Ha [<-|[]]. contradiction.
Qed.

Lemma nodup_update (ws : list (list char)) : forall T : Trie,
  NoDup (tokens T) -> NoDup (tokens (update T ws)).
Proof.
  induction ws as [|v ws IH]; intros T Hnd; simpl; [exact Hnd|].
  apply IH, nodup_add, Hnd.
Qed.

(** ** [_collect_tokens] lists each terminal path once *)

Lemma collect_tokens_eq (t : bool) (ks : list (char * node)) :
  collect_tokens (Node t ks) =
  (if t then [[]] else []) ++ flat_map (fun p => map (cons (fst p)) (collect_tokens (snd p))) ks.
Proof.
  simpl. f_equal. induction ks as [|[k sub] ks IH]; simpl; [reflexivity|]. now rewrite IH.
Qed.

Lemma collect_tokens_nodup (n : node) : wf n -> NoDup (collect_tokens n).
Proof.
  induction n as [t ks IH] using node_ind'.
  intros Hwf. apply wf_kids in Hwf as [Hnd Hsub]. rewrite collect_tokens_eq.
  assert (Hgo : NoDup (flat_map (fun p => map (cons (fst p)) (collect_tokens (snd p))) ks) /\
                forall x, In x (flat_map (fun p => map (cons (fst p)) (collect_tokens (snd p))) ks) ->
                exists c x', x = c :: x' /\ In c (map fst ks)).
  { induction ks as [|[k sub] ks IHks]; simpl; [split; [constructor|intros x []]|].
    simpl in Hnd. apply NoDup_cons_iff in Hnd as [Hk Hnd].
    destruct IHks as [Hnd' Hin'].
    - intros c s Hin. apply (IH c s). now right.
    - exact Hnd.
    - intros c s Hin. apply (Hsub c s). now right.
    - split.
      + apply NoDup_app; [|exact Hnd'|].
        * apply NoDup_map_NoDup_ForallPairs.
          -- intros x y _ _ [= E]. exact E.
          -- apply (IH k sub); [now left|apply (Hsub k sub); now left].
        * intros a Ha Hb. apply in_map_iff in Ha as (x & <- & _).
          destruct (Hin' _ Hb) as (c & x' & [= <- _] & Hc). contradiction.
      + intros x Hx. apply in_app_or in Hx as [Hx|Hx].
        * apply in_map_iff in Hx as (x' & <- & _). exists k, x'. auto.
        * destruct (Hin' x Hx) as (c & x' & -> & Hc). exists c, x'. auto. }
  destruct Hgo as [Hgo Hgo_in]. destruct t; [|exact Hgo].
  apply (NoDup_app (l1 := [[]])); [repeat constructor; auto|exact Hgo|].
  intros a [<-|[]] Ha. destruct (Hgo_in [] Ha) as (c & x' & [=] & _).
Qed.

(** ** [Trie( *args)] *)

Lemma map_singleton_in (s : list char) (w : list char) :
  In w (map (fun c => [c]) s) <-> exists c, In c s /\ w = [c].
Proof.
  rewrite in_map_iff. split; intros (c & H1 & H2); exists c; auto.
Qed.

(** The token set of [Trie(words)] holds each non-empty given word, once,
    and nothing else: the empty string is never a token. *)
Theorem construct_tokens (ws : list (list char)) :
  (forall w, In w (tokens (construct ws)) <-> In w ws /\ w <> []) /\
  NoDup (tokens (construct ws)).
Proof.
  split.
  - intros w. unfold construct. rewrite tokens_update_in. simpl. tauto.
  - apply nodup_update. constructor.
Qed.


(** [extensions(prefix)] never lists a string twice. *)
Theorem extensions_nodup (ws : list (list char)) (prefix : list char) :
  NoDup (extensions char_eq_dec (construct ws) prefix).
Proof.
  unfold extensions.
  apply NoDup_map_NoDup_ForallPairs.
  - intros x y _ _. apply app_inv_head.
  - destruct (get_node_spec char_eq_dec prefix (data (construct ws))) as (q & r & m & _ & Hq & Hg & _).
    rewrite Hg. apply collect_tokens_nodup.
    exact (wf_walk char_eq_dec q _ _ (wf_construct char_eq_dec ws) Hq).
Qed.

(** [extensions("")] lists every token of the trie exactly once: it is a
    permutation of the token set. *)
Theorem extensions_empty_prefix (ws : list (list char)) :
  Permutation (extensions char_eq_dec (construct ws) []) (tokens (construct ws)).
Proof.
  apply NoDup_Permutation.
  - apply extensions_nodup.
  - apply (proj2 (construct_tokens ws)).
  - intros x. change (extensions char_eq_dec (construct ws) []) with
      (map (app []) (collect_tokens (data (construct ws)))).
    rewrite (extensions_from_walk char_eq_dec ws [] [] (data (construct ws)) eq_refl x).
    simpl. split; [intros (s & -> & H); exact H|intros H; now exists x].
Qed.

(** When the prefix is itself an inserted word, it comes first in
    [extensions(prefix)]. *)
Theorem extensions_prefix_first (ws : list (list char)) (prefix : list char) :
  In prefix (tokens (construct ws)) ->
  hd_error (extensions char_eq_dec (construct ws) prefix) = Some prefix.
Proof.
  intros Hin.
  apply (tokens_agree_update char_eq_dec ws _ (tokens_agree_empty char_eq_dec)) in Hin.
  destruct Hin as ([t ks] & Hm & Ht). simpl in Ht. subst t.
  unfold extensions.
  change (update empty_trie ws) with (construct ws) in Hm.
  rewrite (get_node_walk char_eq_dec prefix _ _ Hm), collect_tokens_eq. simpl.
  now rewrite app_nil_r.
Qed.

End TrieExtras.

(** * Further properties of [split] and [cut_text] *)

Section SplitExtras.
Context {char : Type} (char_eq_dec : forall a b : char, {a = b} + {a <> b}).
Variable text : list char.

Local Abbreviation node := (@node char).
Local Abbreviation Trie := (@Trie char).
Local Abbreviation step := (step char_eq_dec text).
Local Abbreviation len := (List.length text).

Lemma last_cons {B : Type} (e : B) (l : list B) (d : B) : last (e :: l) d = last l e.
Proof.
  destruct l as [|b l]; [reflexivity|]. change (last (b :: l) d = last (b :: l) e).
  revert b. induction l as [|c l IH]; intros b; [reflexivity|]. exact (IH c).
Qed.

Lemma ss_le_cons (s e : nat) (l : list nat) :
  s <= e -> StronglySorted le (s :: e :: l) <-> StronglySorted le (e :: l).
Proof.
  intros Hse. split; [now intros H; apply StronglySorted_inv in H as [H _]|].
  intros H. constructor; [exact H|]. constructor; [exact Hse|].
  apply StronglySorted_inv in H as [_ H]. rewrite Forall_forall in *.
  intros x Hx. specialize (H x Hx). lia.
Qed.

Lemma ss_le_last (l : list nat) (z : nat) :
  StronglySorted le (l ++ [z]) -> Forall (fun o => o <= z) (l ++ [z]).
Proof.
  induction l as [|a l IH]; simpl; intros H; [repeat constructor|].
  apply StronglySorted_inv in H as [H Ha]. constructor; [|exact (IH H)].
  rewrite Forall_forall in Ha. apply Ha, in_or_app. right. now left.
Qed.

Lemma slice_nonempty (s e : nat) : s < e <= len -> slice text s e <> [].
Proof.
  intros Hse Heq. assert (Hl : List.length (slice text s e) = 0) by now rewrite Heq.
  unfold slice in Hl. rewrite length_firstn, length_skipn in Hl. lia.
Qed.

(** The loop of [cut_text]: it returns exactly when the cut list does
    not go backwards, and otherwise raises [NameError]. *)
Lemma cut_loop_match (l : list nat) : forall start acc,
  match cut_loop text start l acc with
  | Ok toks =>
      StronglySorted le (start :: l) /\
      (Forall (fun o => o <= len) l ->
       exists new, toks = acc ++ new /\ Forall (fun t => t <> []) new /\
                   firstn start text ++ List.concat new = firstn (last l start) text)
  | Raise e => e = NameError /\ ~ StronglySorted le (start :: l)
  end.
Proof.
  induction l as [|e l IH]; intros start acc; cbn [cut_loop].
  - split; [repeat constructor|]. intros _. exists []. simpl. rewrite !app_nil_r. auto.
  - destruct (e <? start) eqn:E1.
    + apply Nat.ltb_lt in E1. split; [reflexivity|]. intros H.
      apply StronglySorted_inv in H as [_ H]. inversion H. lia.
    + apply Nat.ltb_ge in E1. destruct (start =? e) eqn:E2.
      * apply Nat.eqb_eq in E2. subst e. specialize (IH start acc).
        destruct (cut_loop text start l acc) as [toks|e0].
        -- destruct IH as [Hs IH]. split; [now apply (ss_le_cons start start l E1)|].
           intros Hf. rewrite last_cons. apply IH. now inversion Hf.
        -- destruct IH as [He Hs]. split; [exact He|]. now rewrite (ss_le_cons start start l E1).
      * apply Nat.eqb_neq in E2. specialize (IH e (acc ++ [slice text start e])).
        destruct (cut_loop text e l (acc ++ [slice text start e])) as [toks|e0].
        -- destruct IH as [Hs IH]. split; [now apply (ss_le_cons start e l E1)|].
           intros Hf. inversion Hf as [|? ? He Hf']; subst.
           destruct (IH Hf') as (new & -> & Hne & Hcat).
           exists (slice text start e :: new). split; [now rewrite <- app_assoc|]. split.
           ++ constructor; [apply slice_nonempty; lia|exact Hne].
           ++ rewrite last_cons. simpl. rewrite app_assoc. unfold slice.
              rewrite (firstn_slice text start e E1). exact Hcat.
        -- destruct IH as [He Hs]. split; [exact He|]. now rewrite (ss_le_cons start e l E1).
Qed.

Lemma cut_text_match (offsets : list nat) :
  match cut_text text offsets with
  | Ok toks =>
      StronglySorted le (0 :: offsets ++ [len]) /\
      Forall (fun t => t <> []) toks /\ List.concat toks = text
  | Raise e => e = NameError /\ ~ StronglySorted le (0 :: offsets ++ [len])
  end.
Proof.
  unfold cut_text. pose proof (cut_loop_match (offsets ++ [len]) 0 []) as H.
  destruct (cut_loop text 0 (offsets ++ [len]) []) as [toks|e]; [|exact H].
  destruct H as [Hs H]. split; [exact Hs|].
  destruct H as (new & -> & Hne & Hcat).
  - apply ss_le_last. now apply StronglySorted_inv in Hs as [Hs _].
  - split; [exact Hne|]. rewrite last_last, firstn_all in Hcat. exact Hcat.
Qed.

(** The cut offsets [split] computes, and the fragments it returns. *)
Lemma split_cut (T : Trie) :
  exists offs toks, split_offsets char_eq_dec text T = Ok offs /\
    cut_text text offs = Ok toks /\ split char_eq_dec text T = Ok toks.
Proof.
  destruct (split_run_spec char_eq_dec text T) as (offs & toks & Hoffs & _ & Hrun & _).
  exists offs, toks. unfold split_offsets, split, split_run in *.
  destruct (main_loop char_eq_dec text 0 text (mkL T [] [0] 0 None)) as [st|e];
    [|discriminate].
  injection Hoffs as <-. destruct (cut_text text _) as [toks'|e]; [|discriminate].
  injection Hrun as -> _. auto.
Qed.

Lemma child_root_add (T : Trie) (v : list char) (c : char) (m : node) :
  child char_eq_dec (data (add char_eq_dec T v)) c = Some m ->
  (exists m', child char_eq_dec (data T) c = Some m') \/ hd_error v = Some c.
Proof.
  destruct v as [|d v]; simpl; [intros H; left; now exists m|].
  destruct (data T) as [t ks]. unfold child; simpl.
  destruct (char_eq_dec d c) as [->|Hdc]; [intros _; now right|].
  rewrite assoc_set_kid_other by exact Hdc. intros H. left. now exists m.
Qed.

Lemma child_root_update (ws : list (list char)) : forall (T : Trie) (c : char) (m : node),
  child char_eq_dec (data (update char_eq_dec T ws)) c = Some m ->
  (exists m', child char_eq_dec (data T) c = Some m') \/ exists w, In w ws /\ hd_error w = Some c.
Proof.
  induction ws as [|v ws IH]; intros T c m H; simpl in *; [left; now exists m|].
  destruct (IH _ c m H) as [(m' & Hm')|(w & Hw & Hc)].
  - destruct (child_root_add T v c m' Hm') as [H'|H']; [now left|].
    right. exists v. auto.
  - right. exists w. auto.
Qed.

(** While no character starts a word, the main loop keeps its initial
    locals. *)
Lemma main_loop_idle (T : Trie) (cs : list char) : forall current,
  (forall c, In c cs -> child char_eq_dec (data T) c = None) ->
  main_loop char_eq_dec text current cs (mkL T [] [0] 0 None) = Ok (mkL T [] [0] 0 None).
Proof.
  induction cs as [|c cs IH]; intros current Hc; [reflexivity|].
  cbn [main_loop]. unfold step.
  replace (negb (0 =? 0) && (current <? 0)) with false by reflexivity.
  cbn [scan ls_states ls_skip ls_end ls_offsets ls_self so_reset so_remove so_states so_skip
       so_end so_offsets fold_left].
  replace (0 <=? current) with true by (symmetry; apply Nat.leb_le; lia).
  rewrite (Hc c (or_introl eq_refl)). apply IH. intros c' Hin. apply Hc. now right.
Qed.

(** [cut_text(text, offsets)] returns exactly when the cut list
    [0, offsets..., len(text)] never decreases; its fragments are then
    non-empty and concatenate to the text.  Otherwise it raises
    [NameError] (from the unbound [logger]). *)
Theorem cut_text_spec (offsets : list nat) :
  match cut_text text offsets with
  | Ok toks =>
      StronglySorted le (0 :: offsets ++ [len]) /\
      Forall (fun t => t <> []) toks /\ List.concat toks = text
  | Raise e => e = NameError /\ ~ StronglySorted le (0 :: offsets ++ [len])
  end.
Proof. exact (cut_text_match offsets). Qed.

(** [split] never returns an empty fragment, and it returns no fragment
    at all exactly on the empty text. *)
Theorem split_fragments_nonempty (T : Trie) :
  exists toks, split char_eq_dec text T = Ok toks /\
    Forall (fun t => t <> []) toks /\ (toks = [] <-> text = []).
Proof.
  destruct (split_cut T) as (offs & toks & _ & Hcut & Hsplit).
  pose proof (cut_text_match offs) as H. rewrite Hcut in H.
  destruct H as (_ & Hne & Hcat). exists toks. split; [exact Hsplit|]. split; [exact Hne|].
  split.
  - intros ->. now rewrite <- Hcat.
  - intros Ht. destruct toks as [|t0 ts]; [reflexivity|]. exfalso.
    inversion Hne as [|? ? H0 _]. simpl in Hcat. rewrite Ht in Hcat.
    apply app_eq_nil in Hcat as [Ht0 _]. contradiction.
Qed.

(** If no character of the text is the first character of a word of the
    vocabulary, [split] returns the text as its only fragment (no fragment
    for the empty text); in particular, so it does for the empty
    vocabulary. *)
Theorem split_no_word_start (ws : list (list char)) :
  (forall w c, In w ws -> In c text -> hd_error w <> Some c) ->
  split char_eq_dec text (construct char_eq_dec ws) =
  Ok (match text with [] => [] | _ :: _ => [text] end).
Proof.
  intros H.
  assert (Hc : forall c, In c text -> child char_eq_dec (data (construct char_eq_dec ws)) c = None).
  { intros c Hin. destruct (child char_eq_dec (data (construct char_eq_dec ws)) c) as [m|] eqn:E;
      [|reflexivity].
    exfalso. destruct (child_root_update ws empty_trie c m E) as [(m' & Hm')|(w & Hw & Hh)].
    - discriminate Hm'.
    - exact (H w c Hw Hin Hh). }
  unfold split, split_run. rewrite (main_loop_idle _ text 0 Hc).
  cbn [final_cut ls_states ls_offsets ls_self]. unfold cut_text. simpl.
  destruct text as [|c t]; [reflexivity|]. unfold slice. simpl. now rewrite firstn_all.
Qed.

End SplitExtras.

(** * Further properties of the sorted insertion *)

Section OrderedExtras.
Context {A : Type} (lt : A -> A -> bool) (eq_dec : forall a b : A, {a = b} + {a <> b}).
Hypothesis lt_irrefl : forall a, lt a a = false.
Hypothesis lt_trans : forall a b c, lt a b = true -> lt b c = true -> lt a c = true.
Hypothesis lt_total : forall a b, a <> b -> lt a b = true \/ lt b a = true.

Local Abbreviation R := (fun a b => lt a b = true).
Local Abbreviation ins := (insert_one_token_to_ordered_list lt eq_dec).

(** Two strictly sorted lists with the same elements are equal. *)
Lemma sorted_unique (l1 : list A) : forall l2,
  StronglySorted R l1 -> StronglySorted R l2 -> (forall x, In x l1 <-> In x l2) -> l1 = l2.
Proof.
  induction l1 as [|a l1 IH]; intros [|b l2] H1 H2 Heq.
  - reflexivity.
  - exfalso. apply (proj2 (Heq b)). now left.
  - exfalso. apply (proj1 (Heq a)). now left.
  - apply StronglySorted_inv in H1 as [H1 Ha]. apply StronglySorted_inv in H2 as [H2 Hb].
    rewrite Forall_forall in Ha, Hb.
    assert (Hab : a = b).
    { destruct (eq_dec a b) as [E|E]; [exact E|exfalso].
      destruct (proj1 (Heq a) (or_introl eq_refl)) as [E'|Ha']; [congruence|].
      destruct (proj2 (Heq b) (or_introl eq_refl)) as [E'|Hb']; [congruence|].
      pose proof (lt_trans _ _ _ (Hb a Ha') (Ha b Hb')) as Hbb. now rewrite lt_irrefl in Hbb. }
    subst b. f_equal. apply IH; [exact H1|exact H2|]. intros x. split; intros Hx.
    + destruct (proj1 (Heq x) (or_intror Hx)) as [<-|H]; [|exact H].
      specialize (Ha a Hx). simpl in Ha. now rewrite lt_irrefl in Ha.
    + destruct (proj2 (Heq x) (or_intror Hx)) as [<-|H]; [|exact H].
      specialize (Hb a Hx). simpl in Hb. now rewrite lt_irrefl in Hb.
Qed.

Lemma ins_sorted_in (L : list A) (t : A) : StronglySorted R L ->
  StronglySorted R (ins L t) /\ forall x, In x (ins L t) <-> x = t \/ In x L.
Proof.
  intros HL. destruct (insert_one_token_sorted lt eq_dec lt_irrefl lt_trans lt_total L t HL)
    as [Hin Hnin].
  destruct (in_dec eq_dec t L) as [H|H].
  - rewrite (Hin H). split; [exact HL|]. intros x. split; [auto|]. intros [->|Hx]; auto.
  - destruct (Hnin H) as (_ & Hs & _ & Hp). split; [exact Hs|]. intros x.
    split; intros Hx.
    + apply (Permutation_in x Hp) in Hx. destruct Hx as [E|E]; auto.
    + apply (Permutation_in x (Permutation_sym Hp)). destruct Hx as [E|E]; [left; auto|now right].
Qed.

Lemma ins_idem_comm (L : list A) (a b : A) : StronglySorted R L ->
  ins (ins L a) a = ins L a /\ ins (ins L a) b = ins (ins L b) a.
Proof.
  intros HL.
  destruct (ins_sorted_in L a HL) as [Ha Ha_in].
  destruct (ins_sorted_in L b HL) as [Hb Hb_in].
  destruct (ins_sorted_in _ a Ha) as [Haa Haa_in].
  destruct (ins_sorted_in _ b Ha) as [Hab Hab_in].
  destruct (ins_sorted_in _ a Hb) as [Hba Hba_in].
  split; apply sorted_unique; auto; intros x.
  - rewrite Haa_in, Ha_in. tauto.
  - rewrite Hab_in, Hba_in, Ha_in, Hb_in. tauto.
Qed.

Lemma fold_ins_spec (ts : list A) : forall L, StronglySorted R L ->
  StronglySorted R (fold_left ins ts L) /\
  forall x, In x (fold_left ins ts L) <-> In x ts \/ In x L.
Proof.
  induction ts as [|t ts IH]; intros L HL; simpl.
  - split; [exact HL|]. intros x. tauto.
  - destruct (ins_sorted_in L t HL) as [Hs Hin].
    destruct (IH _ Hs) as [Hs' Hin']. split; [exact Hs'|]. intros x.
    rewrite Hin', Hin. split; [intros [H|[H|H]]|intros [[H|H]|H]]; auto.
Qed.

End OrderedExtras.

(** ** On token lists of [str] *)

(** Inserting a token into a sorted list a second time changes nothing,
    and two insertions give the same list in either order. *)
Theorem insert_idempotent_commutative (L : list string) (a b : string) :
  StronglySorted (fun x y => String.ltb x y = true) L ->
  insert_one_token_to_ordered_list String.ltb string_dec
    (insert_one_token_to_ordered_list String.ltb string_dec L a) a =
  insert_one_token_to_ordered_list String.ltb string_dec L a /\
  insert_one_token_to_ordered_list String.ltb string_dec
    (insert_one_token_to_ordered_list String.ltb string_dec L a) b =
  insert_one_token_to_ordered_list String.ltb string_dec
    (insert_one_token_to_ordered_list String.ltb string_dec L b) a.
Proof.
  apply ins_idem_comm; [exact string_ltb_irrefl|exact string_ltb_trans|exact string_ltb_total].
Qed.

(** Inserting tokens one by one into an empty list builds a strictly
    sorted list holding exactly the inserted tokens. *)
Theorem insert_fold_spec (ts : list string) :
  StronglySorted (fun x y => String.ltb x y = true)
    (fold_left (insert_one_token_to_ordered_list String.ltb string_dec) ts []) /\
  forall x, In x (fold_left (insert_one_token_to_ordered_list String.ltb string_dec) ts []) <->
            In x ts.
Proof.
  destruct (fold_ins_spec String.ltb string_dec string_ltb_irrefl string_ltb_trans
              string_ltb_total ts [] (SSorted_nil _)) as [Hs Hin].
  split; [exact Hs|]. intros x. rewrite Hin. simpl. tauto.
Qed.

(** That list depends only on the set of inserted tokens, not on their
    order or repetitions. *)
Theorem insert_fold_canonical (ts1 ts2 : list string) :
  (forall x, In x ts1 <-> In x ts2) ->
  fold_left (insert_one_token_to_ordered_list String.ltb string_dec) ts1 [] =
  fold_left (insert_one_token_to_ordered_list String.ltb string_dec) ts2 [].
Proof.
  intros Heq.
  destruct (fold_ins_spec String.ltb string_dec string_ltb_irrefl string_ltb_trans
              string_ltb_total ts1 [] (SSorted_nil _)) as [Hs1 Hin1].
  destruct (fold_ins_spec String.ltb string_dec string_ltb_irrefl string_ltb_trans
              string_ltb_total ts2 [] (SSorted_nil _)) as [Hs2 Hin2].
  apply (sorted_unique String.ltb string_dec string_ltb_irrefl string_ltb_trans); [exact Hs1|exact Hs2|].
  intros x. rewrite Hin1, Hin2, Heq. tauto.
Qed.

Lemma insert_idempotent_commutative_witness :
  StronglySorted (fun x y => String.ltb x y = true) ["a"; "c"]%string /\
  insert_one_token_to_ordered_list String.ltb string_dec
    (insert_one_token_to_ordered_list String.ltb string_dec ["a"; "c"]%string "b"%string) "b"%string =
  insert_one_token_to_ordered_list String.ltb string_dec ["a"; "c"]%string "b"%string /\
  insert_one_token_to_ordered_list String.ltb string_dec
    (insert_one_token_to_ordered_list String.ltb string_dec ["a"; "c"]%string "b"%string) "d"%string =
  insert_one_token_to_ordered_list String.ltb string_dec
    (insert_one_token_to_ordered_list String.ltb string_dec ["a"; "c"]%string "d"%string) "b"%string.
Proof.
  assert (H : StronglySorted (fun x y => String.ltb x y = true) ["a"; "c"]%string)
    by (repeat constructor).
  split; [exact H|exact (insert_idempotent_commutative _ _ _ H)].
Defined.

Lemma insert_fold_canonical_witness :
  (forall x, In x ["b"; "a"; "b"]%string <-> In x ["a"; "b"]%string) /\
  fold_left (insert_one_token_to_ordered_list String.ltb string_dec) ["b"; "a"; "b"]%string [] =
  fold_left (insert_one_token_to_ordered_list String.ltb string_dec) ["a"; "b"]%string [].
Proof.
  assert (H : forall x, In x ["b"; "a"; "b"]%string <-> In x ["a"; "b"]%string)
    by (intros x; simpl; tauto).
  split; [exact H|exact (insert_fold_canonical _ _ H)].
Defined.

(** * Character classes *)

(** No character is both whitespace and control, given that the space
    character has the Unicode category ["Zs"] (as it has). *)
Theorem whitespace_not_control (category : nat -> string) (ch : nat) :
  category 32 = "Zs"%string ->
  is_whitespace category ch && is_control category ch = false.
Proof.
  intros H32. unfold is_whitespace, is_control.
  destruct (ch =? 32) eqn:E32, (ch =? 9), (ch =? 10), (ch =? 13); simpl; try reflexivity.
  - apply Nat.eqb_eq in E32. subst ch. now rewrite H32.
  - destruct (String.eqb_spec (category ch) "Zs") as [->|_]; reflexivity.
Qed.

(** Among the printable ASCII characters [!] to [~], the punctuation ones
    are exactly those that are not letters or digits, given that no ASCII
    letter or digit has a Unicode punctuation category (none has). *)
Theorem punctuation_ascii (category : nat -> string) :
  (forall c, 48 <= c <= 57 \/ 65 <= c <= 90 \/ 97 <= c <= 122 ->
             String.prefix "P" (category c) = false) ->
  forall ch, 33 <= ch <= 126 ->
  (is_punctuation category ch = true <-> ~ (48 <= ch <= 57 \/ 65 <= ch <= 90 \/ 97 <= ch <= 122)).
Proof.
  intros Hcat ch Hch. unfold is_punctuation.
  destruct (((33 <=? ch) && (ch <=? 47)) || ((58 <=? ch) && (ch <=? 64)) ||
            ((91 <=? ch) && (ch <=? 96)) || ((123 <=? ch) && (ch <=? 126))) eqn:E.
  - rewrite !orb_true_iff, !andb_true_iff, !Nat.leb_le in E.
    split; [intros _ Hc; lia|reflexivity].
  - rewrite !orb_false_iff, !andb_false_iff, !Nat.leb_gt in E.
    assert (Ha : 48 <= ch <= 57 \/ 65 <= ch <= 90 \/ 97 <= ch <= 122) by lia.
    rewrite (Hcat ch Ha). split; [discriminate|intros H; contradiction].
Qed.


Lemma whitespace_not_control_witness :
  (fun _ : nat => "Zs"%string) 32 = "Zs"%string /\
  is_whitespace (fun _ => "Zs"%string) 32 && is_control (fun _ => "Zs"%string) 32 = false.
Proof.
  split; [reflexivity|apply (whitespace_not_control (fun _ => "Zs"%string) 32); reflexivity].
Defined.

Lemma punctuation_ascii_witness :
  (forall c, 48 <= c <= 57 \/ 65 <= c <= 90 \/ 97 <= c <= 122 ->
             String.prefix "P" ((fun _ : nat => "Ll"%string) c) = false) /\
  33 <= 33 <= 126 /\
  (is_punctuation (fun _ => "Ll"%string) 33 = true <->
   ~ (48 <= 33 <= 57 \/ 65 <= 33 <= 90 \/ 97 <= 33 <= 122)).
Proof.
  assert (H : forall c, 48 <= c <= 57 \/ 65 <= c <= 90 \/ 97 <= c <= 122 ->
                String.prefix "P" ((fun _ : nat => "Ll"%string) c) = false)
    by (intros c _; reflexivity).
  split; [exact H|split; [lia|exact (punctuation_ascii _ H 33 ltac:(lia))]].
Defined.

(** * Witnesses on ASCII text *)

Lemma extensions_prefix_first_witness :
  In (str "app") (tokens (construct ascii_dec [str "apple"; str "app"; str "application"])) /\
  hd_error (extensions ascii_dec (construct ascii_dec [str "apple"; str "app"; str "application"])
              (str "app")) = Some (str "app").
Proof.
  assert (H : In (str "app") (tokens (construct ascii_dec [str "apple"; str "app"; str "application"])))
    by (vm_compute; right; left; reflexivity).
  split; [exact H|exact (extensions_prefix_first ascii_dec _ _ H)].
Defined.

Lemma split_no_word_start_witness :
  (forall w c, In w [str "foo"] -> In c (str "bar") -> hd_error w <> Some c) /\
  split ascii_dec (str "bar") (construct ascii_dec [str "foo"]) =
  Ok (match str "bar" with [] => [] | _ :: _ => [str "bar"] end).
Proof.
  assert (H : forall w c, In w [str "foo"] -> In c (str "bar") -> hd_error w <> Some c).
  { intros w c [<-|[]] Hc. simpl in Hc.
    destruct Hc as [<-|[<-|[<-|[]]]]; vm_compute; discriminate. }
  split; [exact H|exact (split_no_word_start ascii_dec (str "bar") [str "foo"] H)].
Defined.

(** * A text that is a word of the trie *)

Section WordSplit.
Context {char : Type} (char_eq_dec : forall a b : char, {a = b} + {a <> b}).
Variable text : list char.
Variable T : @Trie char.
Variable m : @node char.
Hypothesis Hw : walk char_eq_dec (data T) text = Some m.
Hypothesis Hm : is_term m = true.

Local Abbreviation node := (@node char).
Local Abbreviation len := (List.length text).
Local Abbreviation advance := (advance char_eq_dec).
Local Abbreviation lookahead := (lookahead char_eq_dec text).
Local Abbreviation scan := (scan char_eq_dec text).
Local Abbreviation step := (step char_eq_dec text).

Lemma firstn_S_of_skipn {B : Type} (l : list B) : forall c x xs,
  skipn c l = x :: xs -> firstn (S c) l = firstn c l ++ [x].
Proof.
  induction l as [|y l IH]; intros c x xs H; [destruct c; discriminate|].
  destruct c as [|c]; simpl in *; [now injection H as -> _|].
  f_equal. exact (IH c x xs H).
Qed.

Lemma path_rest (k : nat) (p : node) :
  walk char_eq_dec (data T) (firstn k text) = Some p -> walk char_eq_dec p (skipn k text) = Some m.
Proof.
  intros Hp. pose proof Hw as H. rewrite <- (firstn_skipn k text) in H.
  rewrite walk_app, Hp in H. exact H.
Qed.

Lemma path_full (p : node) :
  walk char_eq_dec (data T) (firstn len text) = Some p -> p = m.
Proof. rewrite firstn_all. congruence. Qed.

Lemma path_step (c : nat) (cc : char) (cs : list char) (p : node) :
  skipn c text = cc :: cs -> walk char_eq_dec (data T) (firstn c text) = Some p ->
  exists q, child char_eq_dec p cc = Some q /\
            walk char_eq_dec (data T) (firstn (S c) text) = Some q.
Proof.
  intros Hs Hp. pose proof (path_rest c p Hp) as H. rewrite Hs in H. simpl in H.
  destruct (child char_eq_dec p cc) as [q|] eqn:E; [|discriminate].
  exists q. split; [reflexivity|].
  rewrite (firstn_S_of_skipn text c cc cs Hs), walk_app, Hp. simpl. now rewrite E.
Qed.

Lemma adv_to_end (lookstart : nat) (rest : list char) : forall p li acc,
  walk char_eq_dec p rest = Some m -> rest <> [] ->
  advance lookstart p li rest acc =
    (lookstart, Some (li + List.length rest), li + List.length rest).
Proof.
  induction rest as [|c rest IH]; intros p li acc Hp Hr; [congruence|].
  simpl in Hp |- *. destruct (child char_eq_dec p c) as [p'|]; [|discriminate].
  destruct rest as [|c' rest'].
  - simpl in Hp. injection Hp as ->. rewrite Hm. simpl.
    now replace (li + 1) with (S li) by lia.
  - rewrite (IH p' (S li) _ Hp ltac:(discriminate)). simpl.
    now replace (li + S (S (List.length rest'))) with (S (li + S (List.length rest'))) by lia.
Qed.

(** The lookahead from the start [0], at a node on the path of the text,
    runs to the end of the text. *)
Lemma adv_full (li : nat) (p : node) (acc : nat * option nat * nat) :
  li <= len -> walk char_eq_dec (data T) (firstn li text) = Some p ->
  (is_term p = true -> acc = (0, Some li, li)) ->
  advance 0 p li (skipn li text) acc = (0, Some len, len).
Proof.
  intros Hli Hp Hacc. pose proof (path_rest li p Hp) as Hr.
  destruct (skipn li text) as [|c rest] eqn:E.
  - assert (Hl : li = len).
    { pose proof (length_skipn li text) as HL. rewrite E in HL. simpl in HL. lia. }
    subst li. pose proof (path_full p Hp) as ->. rewrite (Hacc Hm). reflexivity.
  - rewrite (adv_to_end 0 (c :: rest) p li acc Hr ltac:(discriminate)).
    pose proof (length_skipn li text) as HL. rewrite E in HL.
    now replace (li + List.length (c :: rest)) with len by lia.
Qed.

Lemma del_key_forall (P : nat * node -> Prop) (k : nat) (l : list (nat * node)) :
  Forall P l -> Forall P (del_key k l).
Proof.
  induction l as [|[k' v] l IH]; simpl; intros H; [constructor|].
  inversion H as [|? ? Hx Hl]; subst. destruct (k' =? k); [exact Hl|constructor; auto].
Qed.

Lemma del_keys_head (q : node) (rm : list nat) : forall d,
  Forall (fun k => 0 < k) rm -> Forall (fun x => 0 < fst x) d ->
  exists d', fold_left (fun s k => del_key k s) rm ((0, q) :: d) = (0, q) :: d' /\
             Forall (fun x => 0 < fst x) d'.
Proof.
  induction rm as [|k rm IH]; intros d Hrm Hd; simpl; [exists d; auto|].
  inversion Hrm as [|? ? Hk Hrm']; subst.
  destruct k as [|k]; [lia|].
  apply IH; [exact Hrm'|]. apply del_key_forall, Hd.
Qed.

Lemma set_key_forall (k : nat) (v : node) (l : list (nat * node)) :
  0 < k -> Forall (fun x => 0 < fst x) l -> Forall (fun x => 0 < fst x) (set_key k v l).
Proof.
  intros Hk. induction l as [|[k' v'] l IH]; simpl; intros H; [repeat constructor; exact Hk|].
  inversion H as [|? ? Hx Hl]; subst. destruct (k' =? k); constructor; auto.
Qed.

(** The scan of one main-loop step after state [0] moved on to [p]. *)
Lemma scan_rest (c : nat) (cc : char) (p : node) (e : option nat) :
  S c <= len -> walk char_eq_dec (data T) (firstn (S c) text) = Some p ->
  forall todo d rm, Forall (fun x => 0 < fst x) (d ++ todo) -> Forall (fun k => 0 < k) rm ->
  (exists d' rm', scan c cc ((0, p) :: d) todo rm 0 e [0] =
                  Ok (mkScan ((0, p) :: d') rm' 0 e [0] false) /\
     Forall (fun x => 0 < fst x) d' /\ Forall (fun k => 0 < k) rm') \/
  (exists sts rm', scan c cc ((0, p) :: d) todo rm 0 e [0] =
                   Ok (mkScan sts rm' len (Some len) [0; 0; len] true)).
Proof.
  intros Hc Hp. induction todo as [|[s q] todo IH]; intros d rm Hd Hrm.
  - left. exists d, rm. rewrite app_nil_r in Hd. auto.
  - pose proof Hd as Hd0. apply Forall_app in Hd0 as [Hd1 Hd2].
    inversion Hd2 as [|? ? Hs Htodo]; subst. simpl in Hs.
    cbn [scan app]. destruct (is_term q) eqn:Eq.
    + right.
      assert (HL : lookahead c ((0, p) :: d ++ (s, q) :: todo) s e 0 = (0, Some len, len)).
      { cbn [lookahead]. replace (s <? 0) with false by reflexivity.
        replace (0 <? s) with true by (symmetry; apply Nat.ltb_lt; exact Hs).
        destruct (is_term p) eqn:Ep.
        - rewrite (adv_full (S c) p _ Hc Hp (fun _ => eq_refl)).
          apply lookahead_break. destruct d as [|[k v] d]; [exact Hs|]. now inversion Hd1.
        - rewrite (adv_full (S c) p _ Hc Hp (fun H => ltac:(congruence))).
          apply lookahead_break. destruct d as [|[k v] d]; [exact Hs|]. now inversion Hd1. }
      rewrite HL. eexists _, _. reflexivity.
    + assert (Hmove : forall x, 0 < fst x ->
                Forall (fun y => 0 < fst y) ((d ++ [x]) ++ todo)).
      { intros x Hx. rewrite <- app_assoc. apply Forall_app. split; [exact Hd1|].
        constructor; [exact Hx|exact Htodo]. }
      destruct (child char_eq_dec q cc) as [q'|] eqn:Ec.
      * exact (IH (d ++ [(s, q')]) rm (Hmove (s, q') Hs) Hrm).
      * apply (IH (d ++ [(s, q)]) (rm ++ [s]) (Hmove (s, q) Hs)).
        apply Forall_app. split; [exact Hrm|]. repeat constructor. exact Hs.
Qed.

(** One main-loop step while the text is followed from index [0]: either
    state [0] is still on the path of the text and nothing is cut yet, or
    the lookahead has already cut the whole text and skips to its end. *)
Lemma step_word (c : nat) (cc : char) (cs : list char) (st : lstate) :
  skipn c text = cc :: cs -> 1 <= c ->
  (exists p rest e, st = mkL T ((0, p) :: rest) [0] 0 e /\
     walk char_eq_dec (data T) (firstn c text) = Some p /\
     Forall (fun x => 0 < fst x) rest) \/
  st = mkL T [] [0; 0; len] len (Some len) ->
  exists st', step c cc st = Ok st' /\
  ((exists p rest e, st' = mkL T ((0, p) :: rest) [0] 0 e /\
     walk char_eq_dec (data T) (firstn (S c) text) = Some p /\
     Forall (fun x => 0 < fst x) rest) \/
   st' = mkL T [] [0; 0; len] len (Some len)).
Proof.
  intros Hs Hc1 HI.
  assert (Hlt : c < len).
  { pose proof (length_skipn c text) as H. rewrite Hs in H. simpl in H. lia. }
  destruct HI as [(p & rest & e & -> & Hp & Hrest) | ->].
  - unfold step. cbn [ls_skip ls_states ls_end ls_offsets ls_self].
    replace (negb (0 =? 0) && (c <? 0)) with false by reflexivity.
    cbn [scan app]. destruct (is_term p) eqn:Ep.
    + assert (HL : lookahead c ((0, p) :: rest) 0 e 0 = (0, Some len, len)).
      { cbn [lookahead]. replace (0 <? 0) with false by reflexivity. rewrite Ep.
        rewrite (adv_full c p (0, Some c, c) ltac:(lia) Hp (fun _ => eq_refl)).
        apply lookahead_break. destruct rest as [|[k v] rest]; [exact I|].
        inversion Hrest as [|? ? Hk _]. exact Hk. }
      rewrite HL. cbn [so_reset so_remove so_states so_skip so_end so_offsets app].
      replace (len <=? c) with false by (symmetry; apply Nat.leb_gt; lia).
      eexists. split; [reflexivity|]. right. reflexivity.
    + destruct (path_step c cc cs p Hs Hp) as (q & Hq & Hwq). rewrite Hq.
      destruct (scan_rest c cc q e ltac:(lia) Hwq rest [] [] Hrest (Forall_nil _))
        as [(d' & rm' & Hsc & Hd' & Hrm') | (sts & rm' & Hsc)].
      * rewrite Hsc. cbn [so_reset so_remove so_states so_skip so_end so_offsets].
        destruct (del_keys_head q rm' d' Hrm' Hd') as (d'' & Hdel & Hd'').
        rewrite Hdel. replace (0 <=? c) with true by (symmetry; apply Nat.leb_le; lia).
        destruct c as [|c']; [lia|].
        destruct (child char_eq_dec (data T) cc) as [n|].
        -- eexists. split; [reflexivity|]. left. exists q, (set_key (S c') n d''), e.
           split; [reflexivity|]. split; [exact Hwq|]. apply set_key_forall; [lia|exact Hd''].
        -- eexists. split; [reflexivity|]. left. exists q, d'', e. auto.
      * rewrite Hsc. cbn [so_reset so_remove so_states so_skip so_end so_offsets].
        replace (len <=? c) with false by (symmetry; apply Nat.leb_gt; lia).
        eexists. split; [reflexivity|]. right. reflexivity.
  - unfold step. cbn [ls_skip].
    replace (negb (len =? 0) && (c <? len)) with true
      by (symmetry; apply andb_true_iff; split;
          [apply negb_true_iff, Nat.eqb_neq; lia|apply Nat.ltb_lt; lia]).
    eexists. split; [reflexivity|]. right. reflexivity.
Qed.

Lemma main_word (cs : list char) : forall c st,
  skipn c text = cs -> 1 <= c ->
  (exists p rest e, st = mkL T ((0, p) :: rest) [0] 0 e /\
     walk char_eq_dec (data T) (firstn c text) = Some p /\
     Forall (fun x => 0 < fst x) rest) \/
  st = mkL T [] [0; 0; len] len (Some len) ->
  exists st', main_loop char_eq_dec text c cs st = Ok st' /\
  ((exists p rest e, st' = mkL T ((0, p) :: rest) [0] 0 e /\
     walk char_eq_dec (data T) text = Some p) \/
   st' = mkL T [] [0; 0; len] len (Some len)).
Proof.
  induction cs as [|cc cs IH]; intros c st Hs Hc1 HI.
  - exists st. split; [reflexivity|].
    assert (Hle : len <= c).
    { pose proof (length_skipn c text) as H. rewrite Hs in H. simpl in H. lia. }
    destruct HI as [(p & rest & e & -> & Hp & _) | ->]; [left|right; reflexivity].
    exists p, rest, e. split; [reflexivity|]. now rewrite firstn_all2 in Hp by lia.
  - cbn [main_loop]. destruct (step_word c cc cs st Hs Hc1 HI) as (st' & Hst & HI').
    rewrite Hst. apply IH; [|lia|exact HI'].
    change (S c) with (1 + c). rewrite <- skipn_skipn, Hs. reflexivity.
Qed.

(** A text that is a word of the trie is returned as one fragment. *)
Lemma split_word : text <> [] -> split char_eq_dec text T = Ok [text].
Proof.
  intros Hne.
  destruct (match text as l return l <> [] -> exists c0 t, l = c0 :: t with
            | [] => fun H => False_ind _ (H eq_refl)
            | c0 :: t => fun _ => ex_intro _ c0 (ex_intro _ t eq_refl)
            end Hne) as (c0 & t & Et).
  pose proof Hw as Hw0. rewrite Et in Hw0. cbn [walk] in Hw0.
  destruct (child char_eq_dec (data T) c0) as [n1|] eqn:En1; [|discriminate].
  unfold split, split_run.
  replace (main_loop char_eq_dec text 0 text (mkL T [] [0] 0 None))
    with (main_loop char_eq_dec text 0 (c0 :: t) (mkL T [] [0] 0 None))
    by now rewrite <- Et.
  cbn [main_loop]. unfold step. cbn [ls_skip].
  replace (negb (0 =? 0) && (0 <? 0)) with false by reflexivity.
  cbn [scan ls_states ls_skip ls_end ls_offsets ls_self so_reset so_remove so_states so_skip
       so_end so_offsets fold_left].
  replace (0 <=? 0) with true by reflexivity. rewrite En1. cbn [set_key].
  destruct (main_word t 1 (mkL T [(0, n1)] [0] 0 None)) as (st' & Hml & HI).
  { rewrite Et. reflexivity. }
  { lia. }
  { left. exists n1, [], None. split; [reflexivity|]. split; [|constructor].
    rewrite Et. cbn [firstn walk]. now rewrite En1. }
  rewrite Hml.
  assert (Hoffs : final_cut text (ls_states st') (ls_offsets st') = [0; 0; len]).
  { destruct HI as [(p & rest & e & -> & Hp) | ->]; cbn [final_cut ls_states ls_offsets].
    - rewrite Hw in Hp. injection Hp as <-. now rewrite Hm.
    - reflexivity. }
  rewrite Hoffs. unfold cut_text.
  assert (Hlen : 0 < len) by (rewrite Et; simpl; lia).
  cbn [app cut_loop]. replace (0 <? 0) with false by reflexivity.
  replace (0 =? 0) with true by reflexivity.
  replace (len <? 0) with false by reflexivity.
  replace (0 =? len) with false by (symmetry; apply Nat.eqb_neq; lia).
  rewrite Nat.ltb_irrefl, Nat.eqb_refl. cbn [app].
  unfold slice. rewrite Nat.sub_0_r. cbn [skipn]. now rewrite firstn_all.
Qed.

End WordSplit.

(** A word held in [_tokens] of a trie built by [Trie(words)] and later
    [update] calls is returned by [split] as a single fragment. *)
Theorem split_inserted_word {char : Type} (char_eq_dec : forall a b : char, {a = b} + {a <> b})
    (ws more : list (list char)) (text : list char) :
  In text (tokens (update char_eq_dec (construct char_eq_dec ws) more)) ->
  split char_eq_dec text (update char_eq_dec (construct char_eq_dec ws) more) = Ok [text].
Proof.
  intros Hin.
  pose proof (tokens_agree_update char_eq_dec more _
                (tokens_agree_update char_eq_dec ws _ (tokens_agree_empty char_eq_dec)))
    as HT.
  destruct (proj1 (HT text) Hin) as (m & Hw & Hm).
  apply (split_word char_eq_dec text _ m Hw Hm).
  apply tokens_update_in in Hin as [Hin|[_ Hne]]; [|exact Hne].
  apply tokens_update_in in Hin as [[]|[_ Hne]]. exact Hne.
Qed.

Lemma split_inserted_word_witness :
  In (str "extra_id_1")
     (tokens (update ascii_dec (construct ascii_dec [str "extra_id_1"; str "extra_id_100"])
                     [str "extra_id_10"])) /\
  split ascii_dec (str "extra_id_1")
        (update ascii_dec (construct ascii_dec [str "extra_id_1"; str "extra_id_100"])
                [str "extra_id_10"]) = Ok [str "extra_id_1"].
Proof.
  assert (H : In (str "extra_id_1")
     (tokens (update ascii_dec (construct ascii_dec [str "extra_id_1"; str "extra_id_100"])
                     [str "extra_id_10"]))) by (vm_compute; auto).
  split; [exact H|exact (split_inserted_word ascii_dec _ _ _ H)].
Defined.
